(** * PBO archive parser ([src/pboParser.js]): a shallow embedding

    The development follows the source file top-down: Node's [Buffer]
    primitives the parser relies on, the LZH decompressor
    ([decompressLZH]), the byte cursor ([readCString], [readUInt32LE]),
    the header and property readers, and [parse] itself.

    Conventions.
    - A [Buffer] is a [list byte]; JavaScript numbers that hold sizes,
      offsets and lengths are mathematical integers ([Z]).
    - A JavaScript string is the list of its UTF-16 code units.
    - Loops that the source writes as [while] take a budget of iterations
      ([fuel]); a run that exhausts its budget is reported as [OutOfFuel]
      and is never confused with a run that returned. *)

From Stdlib Require Import ZArith List Lia Bool String Ascii.
From Stdlib.Strings Require Import Byte.
Import ListNotations.
Local Open Scope Z_scope.

(** ** Node [Buffer] primitives *)

Definition Buffer := list byte.

Definition u8 (b : byte) : Z := Z.of_N (Byte.to_N b).

(** [buffer.length] *)
Definition blength (buf : Buffer) : Z := Z.of_nat (List.length buf).

Definition inRange (buf : Buffer) (i : Z) : bool :=
  (0 <=? i) && (i <? blength buf).

(** [buffer[i]] as an r-value: [None] stands for [undefined], which is what
    an index outside the buffer yields. *)
Definition bget (buf : Buffer) (i : Z) : option byte :=
  if inRange buf i then nth_error buf (Z.to_nat i) else None.

Fixpoint setNth (n : nat) (v : byte) (l : list byte) : list byte :=
  match l, n with
  | [], _ => []
  | _ :: tl, O => v :: tl
  | x :: tl, S n' => x :: setNth n' v tl
  end.

(** [buffer[i] = v]: a [Buffer] is a [Uint8Array], whose length is fixed;
    a store at an index outside the buffer is dropped. *)
Definition bset (buf : Buffer) (i : Z) (v : byte) : Buffer :=
  if inRange buf i then setNth (Z.to_nat i) v buf else buf.

(** [Buffer.alloc(size)]: [size] zero bytes, for the sizes Node accepts,
    which run from 0 to [buffer.constants.MAX_LENGTH]; for any other size
    Node throws a [RangeError] and allocates nothing.  [parse] passes an
    unsigned 32-bit count.  Statements that let the size vary bound it
    (see [MAX_STRING_LENGTH]). *)
Definition alloc (size : Z) : Buffer := repeat x00 (Z.to_nat size).

(** [buffer.constants.MAX_STRING_LENGTH] of a 64-bit build: the length of
    the longest string V8 makes.  [buffer.toString] gives the decoded
    string for a buffer of at most that many bytes; for a longer one it
    throws the [Error] [ERR_STRING_TOO_LONG] or, in some releases and
    from 2^31 bytes on, returns the empty string.  [toStringUtf8] below is the decoding
    itself.  Where the length of the buffer that is decoded is read from
    the archive and not the length of bytes at hand (the [originalSize]
    handed to [decompressLZH]), a statement bounds it by this constant. *)
Definition MAX_STRING_LENGTH : Z := 0x1fffffe8.

(** The value an element read takes in integer arithmetic ([undefined]
    converts to 0 under [>>]). *)
Definition toInt (o : option byte) : Z :=
  match o with Some b => u8 b | None => 0 end.

(** The byte a [Uint8Array] keeps when an element read is stored into it
    ([undefined] is stored as 0). *)
Definition toUint8 (o : option byte) : byte :=
  match o with Some b => b | None => x00 end.

(** The byte range of [buffer.toString('utf8', start, end)] and of
    [buffer.slice(start, end)]: both ends are clamped to the buffer.  A
    negative [start] counts as 0, as [toString] takes it; [parse] calls
    [slice] with non-negative bounds only. *)
Definition slice (buf : Buffer) (start stop : Z) : Buffer :=
  firstn (Z.to_nat (stop - Z.max 0 start)) (skipn (Z.to_nat start) buf).

(** The exceptions a run can end with.  The parser raises none of its own;
    the one that can escape for sizes within the limits above is the
    [RangeError] of Node's bounds-checked integer reads.  The [Error]
    [ERR_STRING_TOO_LONG] of a string longer than [MAX_STRING_LENGTH]
    has no counterpart here: a statement about a size read from the
    archive keeps it below that limit. *)
Inductive exn : Type := RangeError.

(** [error.name] *)
Definition errorName (e : exn) : string :=
  match e with RangeError => "RangeError"%string end.

(** How a run ends: it returns a value, it throws, or it is still running
    when its budget of loop iterations is spent ([OutOfFuel], with the
    machine state [S] reached so far). *)
Inductive outcome (S A : Type) : Type :=
| Returned (a : A)
| Thrown (e : exn)
| OutOfFuel (s : S).
Arguments Returned {S A} a.
Arguments Thrown {S A} e.
Arguments OutOfFuel {S A} s.

Definition bind {S A B : Type} (m : outcome S A) (k : A -> outcome S B)
  : outcome S B :=
  match m with
  | Returned a => k a
  | Thrown e => Thrown e
  | OutOfFuel s => OutOfFuel s
  end.

Notation "x <- m ;; k" := (bind m (fun x => k))
  (at level 61, m at next level, right associativity).

(** [buffer.readUInt16LE(offset)]: throws unless the two bytes lie inside
    the buffer. *)
Definition readUInt16LE (buf : Buffer) (offset : Z) : option Z :=
  if (0 <=? offset) && (offset + 2 <=? blength buf) then
    Some (toInt (bget buf offset) + 256 * toInt (bget buf (offset + 1)))
  else None.

(** [buffer.readUInt32LE(offset)]: throws unless the four bytes lie inside
    the buffer. *)
Definition readUInt32LE (buf : Buffer) (offset : Z) : option Z :=
  if (0 <=? offset) && (offset + 4 <=? blength buf) then
    Some (toInt (bget buf offset)
          + 256 * toInt (bget buf (offset + 1))
          + 65536 * toInt (bget buf (offset + 2))
          + 16777216 * toInt (bget buf (offset + 3)))
  else None.

(** ** The decompressor: [decompressLZH] *)

(** The local variables of [decompressLZH].  [reads] is ghost state: the
    indices of [compressedData] that have been read, most recent first. *)
Record lzh : Type := mkLzh {
  output : Buffer;
  outputPos : Z;
  inputPos : Z;
  reads : list Z
}.

(** [output[outputPos++] = v] *)
Definition storeByte (v : byte) (s : lzh) : lzh :=
  {| output := bset (output s) (outputPos s) v;
     outputPos := outputPos s + 1;
     inputPos := inputPos s;
     reads := reads s |}.

(** [for (let j = 0; j < rlen; j++) output[outputPos++] = 0x20;] *)
Fixpoint fillSpaces (n : nat) (s : lzh) : lzh :=
  match n with
  | O => s
  | S n' => fillSpaces n' (storeByte x20 s)
  end.

(** [for (let j = 0; j < rlen; j++) output[outputPos++] = output[copyPos++];] *)
Fixpoint copyLoop (n : nat) (copyPos : Z) (s : lzh) : lzh :=
  match n with
  | O => s
  | S n' =>
      copyLoop n' (copyPos + 1)
        (storeByte (toUint8 (bget (output s) copyPos)) s)
  end.

(** [while (rpos < 0) { output[outputPos++] = 0x20; rlen--; }]
    The loop returns the state together with the value of [rlen].  Its
    condition reads [rpos], which the body leaves as it is. *)
Fixpoint padLoop (fuel : nat) (rpos rlen : Z) (s : lzh)
  : outcome lzh (lzh * Z) :=
  if rpos <? 0 then
    match fuel with
    | O => OutOfFuel s
    | S f => padLoop f rpos (rlen - 1) (storeByte x20 s)
    end
  else Returned (s, rlen).

Section Decompress.

Variable fuel : nat.
Variable compressedData : Buffer.
Variable originalSize : Z.

(** The literal branch: [output[outputPos++] = compressedData[inputPos++];] *)
Definition literal (s : lzh) : lzh :=
  {| output := bset (output s) (outputPos s)
                 (toUint8 (bget compressedData (inputPos s)));
     outputPos := outputPos s + 1;
     inputPos := inputPos s + 1;
     reads := inputPos s :: reads s |}.

(** The back-reference branch (the [else] of [if (isUncompressed)]). *)
Definition backReference (s : lzh) : outcome lzh lzh :=
  match readUInt16LE compressedData (inputPos s) with
  | None => Thrown RangeError
  | Some pointer =>
      let s1 := {| output := output s;
                   outputPos := outputPos s;
                   inputPos := inputPos s + 2;
                   reads := (inputPos s + 1) :: inputPos s :: reads s |} in
      let rpos := outputPos s - Z.land pointer 0x00ff
                  - Z.shiftr (Z.land pointer 0xf000) 4 in
      let rlen := Z.shiftr (Z.land pointer 0x0f00) 8 + 3 in
      if rpos + rlen <? 0 then
        Returned (fillSpaces (Z.to_nat rlen) s1)
      else
        let copyPos := Z.max 0 rpos in
        r <- padLoop fuel rpos rlen s1 ;;
        let '(s2, rlen') := r in
        if 0 <? rlen' then Returned (copyLoop (Z.to_nat rlen') copyPos s2)
        else Returned s2
  end.

(** One sub-operation: the body of the [for] loop over the bits of
    [format]. *)
Definition subOperation (format i : Z) (s : lzh) : outcome lzh lzh :=
  let isUncompressed := Z.land (Z.shiftr format i) 0x01 in
  if isUncompressed =? 0 then backReference s
  else Returned (literal s).

(** [for (let i = 0; i < 8 && outputPos < originalSize
          && inputPos < compressedData.length - 2; i++)]
    [n] counts the values of [i] still below 8. *)
Fixpoint bitLoop (n : nat) (format i : Z) (s : lzh) : outcome lzh lzh :=
  match n with
  | O => Returned s
  | S n' =>
      if (outputPos s <? originalSize)
         && (inputPos s <? blength compressedData - 2)
      then
        s' <- subOperation format i s ;;
        bitLoop n' format (i + 1) s'
      else Returned s
  end.

(** [while (outputPos < originalSize && inputPos < compressedData.length)] *)
Fixpoint roundLoop (rounds : nat) (s : lzh) : outcome lzh lzh :=
  if (outputPos s <? originalSize)
     && (inputPos s <? blength compressedData)
  then
    match rounds with
    | O => OutOfFuel s
    | S r =>
        let format := toInt (bget compressedData (inputPos s)) in
        let s1 := {| output := output s;
                     outputPos := outputPos s;
                     inputPos := inputPos s + 1;
                     reads := inputPos s :: reads s |} in
        s2 <- bitLoop 8 format 0 s1 ;;
        roundLoop r s2
    end
  else Returned s.

(** The state on entry to the round loop. *)
Definition lzhInit : lzh :=
  {| output := alloc originalSize; outputPos := 0; inputPos := 0;
     reads := [] |}.

(** [decompressLZH] up to, and without, the final [toString]. *)
Definition decompressLZH_run : outcome lzh lzh := roundLoop fuel lzhInit.

End Decompress.

(** ** JavaScript strings *)

(** A string is the list of its UTF-16 code units. *)
Definition jsstring := list Z.

(** A string literal of the source (ASCII). *)
Definition lit (s : string) : jsstring :=
  map (fun a => Z.of_nat (nat_of_ascii a)) (list_ascii_of_string s).

Fixpoint jsstring_eqb (a b : jsstring) : bool :=
  match a, b with
  | [], [] => true
  | x :: a', y :: b' => (x =? y) && jsstring_eqb a' b'
  | _, _ => false
  end.

(** [s === ''], which is also [!s] for a string [s]. *)
Definition isEmpty (s : jsstring) : bool :=
  match s with [] => true | _ :: _ => false end.

(** [s.length] *)
Definition slength (s : jsstring) : Z := Z.of_nat (List.length s).

(** [s.toLowerCase()] on the Basic Latin letters.  The parser only tests
    the lowered name for the suffixes ['.c'] and ['.cpp'], and no code
    point other than [A-Z] lower-cases to ['c'], ['p'] or ['.']. *)
Definition toLowerCase (s : jsstring) : jsstring :=
  map (fun c => if (0x41 <=? c) && (c <=? 0x5A) then c + 32 else c) s.

(** [s.endsWith(suffix)] *)
Definition endsWith (s suffix : jsstring) : bool :=
  (List.length suffix <=? List.length s)%nat
  && jsstring_eqb (skipn (List.length s - List.length suffix) s) suffix.

(** [s.split(sep)] for a separator that matches one code unit: [cur] is
    the piece being read, in reverse. *)
Fixpoint splitOn (sep : Z -> bool) (cur : jsstring) (s : jsstring)
  : list jsstring :=
  match s with
  | [] => [rev cur]
  | c :: tl =>
      if sep c then rev cur :: splitOn sep [] tl
      else splitOn sep (c :: cur) tl
  end.

(** [content.split('\n')] *)
Definition splitLines (s : jsstring) : list jsstring :=
  splitOn (fun c => c =? 0x0A) [] s.

(** [fileName.split(/[\\/]/).pop()] *)
Definition baseName (s : jsstring) : jsstring :=
  last (splitOn (fun c => (c =? 0x5C) || (c =? 0x2F)) [] s) [].

(** *** UTF-8 decoding, as done by [buffer.toString('utf8')]

    Ill-formed input is replaced by U+FFFD, one per maximal ill-formed
    prefix; a code point above U+FFFF takes two code units. *)

Definition codeUnits (cp : Z) : jsstring :=
  if cp <? 0x10000 then [cp]
  else [0xD800 + Z.shiftr (cp - 0x10000) 10;
        0xDC00 + Z.land (cp - 0x10000) 0x3FF].

(** A sequence in progress: the bits gathered, the continuation bytes
    still expected, and the bounds for the next byte. *)
Definition pending : Type := (Z * nat * Z * Z)%type.

(** A byte met outside of any sequence. *)
Definition utf8Lead (b : Z) : jsstring * option pending :=
  if b <=? 0x7F then ([b], None)
  else if (0xC2 <=? b) && (b <=? 0xDF) then
    ([], Some (Z.land b 0x1F, 1%nat, 0x80, 0xBF))
  else if (0xE0 <=? b) && (b <=? 0xEF) then
    ([], Some (Z.land b 0x0F, 2%nat,
               (if b =? 0xE0 then 0xA0 else 0x80),
               (if b =? 0xED then 0x9F else 0xBF)))
  else if (0xF0 <=? b) && (b <=? 0xF4) then
    ([], Some (Z.land b 0x07, 3%nat,
               (if b =? 0xF0 then 0x90 else 0x80),
               (if b =? 0xF4 then 0x8F else 0xBF)))
  else ([0xFFFD], None).

Fixpoint utf8Decode (p : option pending) (bytes : Buffer) : jsstring :=
  match bytes with
  | [] => match p with None => [] | Some _ => [0xFFFD] end
  | b :: tl =>
      match p with
      | None =>
          let '(out, p') := utf8Lead (u8 b) in out ++ utf8Decode p' tl
      | Some (cp, n, lo, hi) =>
          if (lo <=? u8 b) && (u8 b <=? hi) then
            let cp' := Z.lor (Z.shiftl cp 6) (Z.land (u8 b) 0x3F) in
            match n with
            | S (S n') => utf8Decode (Some (cp', S n', 0x80, 0xBF)) tl
            | _ => codeUnits cp' ++ utf8Decode None tl
            end
          else
            let '(out, p') := utf8Lead (u8 b) in
            0xFFFD :: out ++ utf8Decode p' tl
      end
  end.

(** [buffer.toString('utf8')] *)
Definition toStringUtf8 (buf : Buffer) : jsstring := utf8Decode None buf.

(** [decompressLZH(compressedData, originalSize)]: the round loop followed
    by [return output.toString('utf8')], for an [originalSize] from 0 to
    [MAX_STRING_LENGTH], where [Buffer.alloc] and [toString] succeed. *)
Definition decompressLZH (fuel : nat) (compressedData : Buffer)
  (originalSize : Z) : outcome lzh jsstring :=
  s <- decompressLZH_run fuel compressedData originalSize ;;
  Returned (toStringUtf8 (output s)).

(** ** The byte cursor: [readCString] *)

Module CString.
Record t : Type := mk { value : jsstring; newOffset : Z }.
End CString.

(** [buffer[end] !== 0] *)
Definition notZero (o : option byte) : bool :=
  match o with Some b => negb (u8 b =? 0) | None => true end.

(** [while (end < buffer.length && buffer[end] !== 0) end++;]
    [rest] holds the bytes at [end], [end + 1], ... up to the end of the
    buffer; the function returns the final value of [end]. *)
Fixpoint scanCString (rest : Buffer) (end_ : Z) : Z :=
  match rest with
  | [] => end_
  | b :: tl => if notZero (Some b) then scanCString tl (end_ + 1) else end_
  end.

(** [readCString(buffer, offset)].  A negative [offset] (which the parser
    never passes) makes the loop step over the indices below 0, all of
    them [undefined], and [toString] start at 0. *)
Definition readCString (buffer : Buffer) (offset : Z) : CString.t :=
  let end_ := scanCString (skipn (Z.to_nat offset) buffer) (Z.max 0 offset) in
  CString.mk (toStringUtf8 (slice buffer offset end_)) (end_ + 1).

(** ** Header and property readers *)

Definition PACKING_METHOD_UNCOMPRESSED : Z := 0x00000000.
Definition PACKING_METHOD_PACKED : Z := 0x43707273.
Definition PACKING_METHOD_PRODUCT : Z := 0x56657273.

(** The object [readHeaderEntry] returns. *)
Record HeaderEntry : Type := mkHeaderEntry {
  fileName : jsstring;
  packingMethod : Z;
  originalSize : Z;
  reserved : Z;
  timeStamp : Z;
  dataSize : Z;
  newOffset : Z
}.

(** Runs of the parser proper carry no decompressor state. *)
Definition result (A : Type) : Type := outcome unit A.

(** A call of [buffer.readUInt32LE(offset)], which may throw. *)
Definition readU32 (buffer : Buffer) (offset : Z) : result Z :=
  match readUInt32LE buffer offset with
  | Some v => Returned v
  | None => Thrown RangeError
  end.

(** [readHeaderEntry(buffer, offset)] *)
Definition readHeaderEntry (buffer : Buffer) (offset : Z)
  : result HeaderEntry :=
  let fileName := readCString buffer offset in
  let offset := CString.newOffset fileName in
  packingMethod <- readU32 buffer offset ;;
  let offset := offset + 4 in
  originalSize <- readU32 buffer offset ;;
  let offset := offset + 4 in
  reserved <- readU32 buffer offset ;;
  let offset := offset + 4 in
  timeStamp <- readU32 buffer offset ;;
  let offset := offset + 4 in
  dataSize <- readU32 buffer offset ;;
  let offset := offset + 4 in
  Returned {| fileName := CString.value fileName;
              packingMethod := packingMethod;
              originalSize := originalSize;
              reserved := reserved;
              timeStamp := timeStamp;
              dataSize := dataSize;
              newOffset := offset |}.

Module Property.
(** The object [readProperty] returns; [None] stands for [null]. *)
Record t : Type := mk {
  name : option jsstring;
  value : option jsstring;
  newOffset : Z
}.
End Property.

(** [readProperty(buffer, offset)] *)
Definition readProperty (buffer : Buffer) (offset : Z) : Property.t :=
  let name := readCString buffer offset in
  let offset := CString.newOffset name in
  if isEmpty (CString.value name) then Property.mk None None offset
  else
    let value := readCString buffer offset in
    let offset := CString.newOffset value in
    Property.mk (Some (CString.value name)) (Some (CString.value value))
      offset.

(** [!prop.name] *)
Definition noName (o : option jsstring) : bool :=
  match o with None => true | Some s => isEmpty s end.

(** ** [parse] *)

(** The records pushed onto [this.files]. *)
Record ExtractedFile : Type := mkExtractedFile {
  path : jsstring;
  name : jsstring;
  content : jsstring;
  lines : list jsstring;
  size : Z
}.

(** A [PBOParser] instance. *)
Record PBOParser : Type := mkPBOParser {
  pboPath : jsstring;
  files : list ExtractedFile
}.

(** [new PBOParser(pboPath)] *)
Definition newPBOParser (pboPath : jsstring) : PBOParser :=
  {| pboPath := pboPath; files := [] |}.

(** [getFiles()] *)
Definition getFiles (this : PBOParser) : list ExtractedFile := files this.

(** A [console.warn] line of [parse]: the entry name and the packing
    method it reports as unknown.  The [console.log] progress lines are
    not modelled. *)
Record Warning : Type := mkWarning {
  warnedName : jsstring;
  warnedMethod : Z
}.

(** The property block loop (lines 69-74):
    [while (true) { prop = readProperty(buffer, offset);
                    offset = prop.newOffset; if (!prop.name) break; }]
    It returns the final [offset]. *)
Fixpoint propertyLoop (fuel : nat) (buffer : Buffer) (offset : Z)
  : result Z :=
  let prop := readProperty buffer offset in
  let offset := Property.newOffset prop in
  if noName (Property.name prop) then Returned offset
  else
    match fuel with
    | O => OutOfFuel tt
    | S f => propertyLoop f buffer offset
    end.

(** The entry table loop (lines 80-91):
    [while (true) { headerEntry = readHeaderEntry(buffer, offset);
                    offset = headerEntry.newOffset;
                    if (headerEntry.fileName === '') break;
                    entries.push(headerEntry); }]
    It returns [entries] and the final [offset]. *)
Fixpoint entryLoop (fuel : nat) (buffer : Buffer) (offset : Z)
  (entries : list HeaderEntry) : result (list HeaderEntry * Z) :=
  match readHeaderEntry buffer offset with
  | Returned headerEntry =>
      let offset := newOffset headerEntry in
      if isEmpty (fileName headerEntry) then Returned (entries, offset)
      else
        match fuel with
        | O => OutOfFuel tt
        | S f => entryLoop f buffer offset (entries ++ [headerEntry])
        end
  | Thrown e => Thrown e
  | OutOfFuel s => OutOfFuel s
  end.

(** Lines 60-78: the first header entry, and the property block when the
    first entry is the product entry.  Returns [entries] and [offset] as
    they are on entry to the entry table loop. *)
Definition firstHeader (fuel : nat) (buffer : Buffer)
  : result (list HeaderEntry * Z) :=
  firstEntry <- readHeaderEntry buffer 0 ;;
  let offset := newOffset firstEntry in
  if packingMethod firstEntry =? PACKING_METHOD_PRODUCT then
    offset <- propertyLoop fuel buffer offset ;;
    Returned ([], offset)
  else if negb (isEmpty (fileName firstEntry)) then
    Returned ([firstEntry], offset)
  else Returned ([], offset).

(** Lines 60-91: the entry table and the offset of the first data block. *)
Definition buildTable (fuel : nat) (buffer : Buffer)
  : result (list HeaderEntry * Z) :=
  start <- firstHeader fuel buffer ;;
  entryLoop fuel buffer (snd start) (fst start).

(** The variables the extraction loop updates: the running [offset],
    [this.files] and the console. *)
Record extraction : Type := mkExtraction {
  offset : Z;
  thisFiles : list ExtractedFile;
  console : list Warning
}.

(** [entry.fileName.toLowerCase().endsWith('.c')
     || entry.fileName.toLowerCase().endsWith('.cpp')] *)
Definition isScript (entry : HeaderEntry) : bool :=
  endsWith (toLowerCase (fileName entry)) (lit ".c")
  || endsWith (toLowerCase (fileName entry)) (lit ".cpp").

(** The object literal pushed onto [this.files] (lines 112-118). *)
Definition extractedFile (entry : HeaderEntry) (content : jsstring)
  : ExtractedFile :=
  {| path := fileName entry;
     name := baseName (fileName entry);
     content := content;
     lines := splitLines content;
     size := slength content |}.

(** A call of [this.decompressLZH] from [parse]. *)
Definition callDecompressLZH (fuel : nat) (fileData : Buffer)
  (originalSize : Z) : result jsstring :=
  match decompressLZH fuel fileData originalSize with
  | Returned s => Returned s
  | Thrown e => Thrown e
  | OutOfFuel _ => OutOfFuel tt
  end.

(** The body of [for (const entry of entries)] (lines 96-121). *)
Definition extractEntry (fuel : nat) (buffer : Buffer) (entry : HeaderEntry)
  (x : extraction) : result extraction :=
  if isScript entry then
    let fileData := slice buffer (offset x) (offset x + dataSize entry) in
    let offset' := offset x + dataSize entry in
    if packingMethod entry =? PACKING_METHOD_UNCOMPRESSED then
      Returned {| offset := offset';
                  thisFiles := thisFiles x
                               ++ [extractedFile entry (toStringUtf8 fileData)];
                  console := console x |}
    else if packingMethod entry =? PACKING_METHOD_PACKED then
      content <- callDecompressLZH fuel fileData (originalSize entry) ;;
      Returned {| offset := offset';
                  thisFiles := thisFiles x ++ [extractedFile entry content];
                  console := console x |}
    else
      Returned {| offset := offset';
                  thisFiles := thisFiles x;
                  console := console x
                             ++ [mkWarning (fileName entry)
                                   (packingMethod entry)] |}
  else
    Returned {| offset := offset x + dataSize entry;
                thisFiles := thisFiles x;
                console := console x |}.

(** [for (const entry of entries) { ... }] (lines 95-122) *)
Fixpoint extractLoop (fuel : nat) (buffer : Buffer)
  (entries : list HeaderEntry) (x : extraction) : result extraction :=
  match entries with
  | [] => Returned x
  | entry :: rest =>
      x' <- extractEntry fuel buffer entry x ;;
      extractLoop fuel buffer rest x'
  end.

(** [parse()], given the bytes [fs.readFile(this.pboPath)] yields.  The
    value handed to the caller is the array [this.files] itself, so the
    run returns the instance as [parse] leaves it, with the console lines
    written; the caller sees [files] of that instance.  An exception
    of the table building leaves [this.files] as it was, since nothing
    is pushed before the table is built. *)
Definition parse (fuel : nat) (buffer : Buffer) (this : PBOParser)
  : result (PBOParser * list Warning) :=
  table <- buildTable fuel buffer ;;
  let '(entries, offset) := table in
  x <- extractLoop fuel buffer entries
         {| offset := offset; thisFiles := files this; console := [] |} ;;
  Returned ({| pboPath := pboPath this; files := thisFiles x |}, console x).

(** ** Notions used in the statements *)

(** The backward distance and the copy length a pointer encodes. *)
Definition distance (pointer : Z) : Z :=
  Z.land pointer 0x00ff + Z.shiftr (Z.land pointer 0xf000) 4.

Definition copyLength (pointer : Z) : Z :=
  Z.shiftr (Z.land pointer 0x0f00) 8 + 3.

(** What holds of the decompressor's variables all along a run: the output
    buffer keeps the length it was allocated with, and every index of the
    input that was read lies inside the input. *)
Definition inBounds (data : Buffer) (size : Z) (s : lzh) : Prop :=
  List.length (output s) = Z.to_nat size
  /\ Forall (fun i => 0 <= i < blength data) (reads s)
  /\ 0 <= inputPos s.

Definition bounded (data : Buffer) (size : Z) (o : outcome lzh lzh) : Prop :=
  match o with
  | Returned s => inBounds data size s
  | Thrown _ => False
  | OutOfFuel s => inBounds data size s
  end.



(** The entry table as the archive lays it out (spec, section 6): the
    header entries read one after the other from [start], all with a
    name, up to a header entry with an empty name, the boundary marker,
    after which the data blocks begin at [stop]. *)
Inductive tableAt (buffer : Buffer) : Z -> list HeaderEntry -> Z -> Prop :=
| table_marker (start : Z) (marker : HeaderEntry) :
    readHeaderEntry buffer start = Returned marker ->
    fileName marker = [] ->
    tableAt buffer start [] (newOffset marker)
| table_entry (start : Z) (entry : HeaderEntry) (rest : list HeaderEntry)
    (stop : Z) :
    readHeaderEntry buffer start = Returned entry ->
    fileName entry <> [] ->
    tableAt buffer (newOffset entry) rest stop ->
    tableAt buffer start (entry :: rest) stop.

(** An archive is truncated when its bytes are exhausted before a boundary
    marker is read: the first header entry cannot be read, or no entry
    table lies at the offset where the table is to start. *)
Definition truncated (buffer : Buffer) : Prop :=
  forall fuel entries start,
    firstHeader fuel buffer = Returned (entries, start) ->
    forall table stop, ~ tableAt buffer start table stop.

(** [o'] is the same run as [o] with more budget: if [o] returned or
    threw, so did [o'], alike. *)
Definition settles {S A : Type} (o o' : outcome S A) : Prop :=
  match o with
  | OutOfFuel _ => True
  | _ => o' = o
  end.

(** ** All-literal compressed input *)

(** Eight literal bytes, the payload of one control byte. *)
Definition block : Type :=
  (byte * byte * byte * byte * byte * byte * byte * byte)%type.

Definition literalsOf (b : block) : Buffer :=
  let '(b0, b1, b2, b3, b4, b5, b6, b7) := b in
  [b0; b1; b2; b3; b4; b5; b6; b7].

(** A control byte with all 8 bits set, followed by its 8 literals. *)
Definition encodeBlock (b : block) : Buffer := xff :: literalsOf b.

Definition allLiteral (blocks : list block) : Buffer :=
  flat_map encodeBlock blocks.

Definition literalBytes (blocks : list block) : Buffer :=
  flat_map literalsOf blocks.

(** ** Archive fixtures: the on-disk layout of section 6 of the spec *)

Definition byteOfZ (z : Z) : byte :=
  match Byte.of_N (Z.to_N (z mod 256)) with Some b => b | None => x00 end.

(** The bytes of an ASCII text. *)
Definition bytesOf (s : string) : Buffer :=
  map byte_of_ascii (list_ascii_of_string s).

(** A 32-bit little-endian integer. *)
Definition u32le (z : Z) : Buffer :=
  [byteOfZ z; byteOfZ (z / 256); byteOfZ (z / 65536); byteOfZ (z / 16777216)].

(** One header entry as laid out on disk. *)
Definition headerBytes (fileName : string)
  (packingMethod originalSize reserved timeStamp dataSize : Z) : Buffer :=
  bytesOf fileName ++ [x00] ++ u32le packingMethod ++ u32le originalSize
  ++ u32le reserved ++ u32le timeStamp ++ u32le dataSize.

(** Scenario A of the spec. *)
Definition scenarioA : Buffer :=
  headerBytes "test.c" 0 5 0 0 5 ++ headerBytes "" 0 0 0 0 0
  ++ bytesOf "hello".

(** The header entry of "test.c" in scenario A. *)
Definition entryTestC : HeaderEntry :=
  {| fileName := lit "test.c";
     packingMethod := 0; originalSize := 5; reserved := 0; timeStamp := 0;
     dataSize := 5; newOffset := 27 |}.

(** Scenario A cut off after its first header entry. *)
Definition scenarioTruncated : Buffer := headerBytes "test.c" 0 5 0 0 5.

(** Scenario C of the spec: "a.c" is packed, declares 10 bytes and has no
    compressed bytes at all; "b.CPP" is stored as it is. *)
Definition scenarioC : Buffer :=
  headerBytes "a.c" 0x43707273 10 0 0 0 ++ headerBytes "b.CPP" 0 2 0 0 2
  ++ headerBytes "" 0 0 0 0 0 ++ bytesOf "hi".

Definition entryA : HeaderEntry :=
  {| fileName := lit "a.c";
     packingMethod := 0x43707273; originalSize := 10; reserved := 0;
     timeStamp := 0; dataSize := 0; newOffset := 24 |}.

Definition entryB : HeaderEntry :=
  {| fileName := lit "b.CPP";
     packingMethod := 0; originalSize := 2; reserved := 0;
     timeStamp := 0; dataSize := 2; newOffset := 50 |}.

(** The records [parse] returns for scenario C. *)
Definition recordA : ExtractedFile :=
  {| path := lit "a.c"; name := lit "a.c";
     content := [0; 0; 0; 0; 0; 0; 0; 0; 0; 0];
     lines := [[0; 0; 0; 0; 0; 0; 0; 0; 0; 0]];
     size := 10 |}.

Definition recordB : ExtractedFile :=
  {| path := lit "b.CPP"; name := lit "b.CPP";
     content := lit "hi"; lines := [lit "hi"]; size := 2 |}.

(** The block "ABCDEFGH". *)
Definition blockAH : block := (x41, x42, x43, x44, x45, x46, x47, x48).

(** ** Encoders: the on-disk layout, for arbitrary contents *)

(** A byte string that can stand before a zero terminator. *)
Definition noZero (s : Buffer) : Prop := Forall (fun b => b <> x00) s.

(** The range of an unsigned 32-bit integer. *)
Definition isU32 (z : Z) : Prop := 0 <= z < 4294967296.

(** One header entry as laid out on disk, the name given by its bytes. *)
Definition encodeHeader (name : Buffer)
  (packingMethod originalSize reserved timeStamp dataSize : Z) : Buffer :=
  name ++ [x00] ++ u32le packingMethod ++ u32le originalSize
  ++ u32le reserved ++ u32le timeStamp ++ u32le dataSize.

(** One pair of the property block, and the block with its terminator. *)
Definition encodeProperty (p : Buffer * Buffer) : Buffer :=
  fst p ++ [x00] ++ snd p ++ [x00].

Definition encodeProperties (pairs : list (Buffer * Buffer)) : Buffer :=
  flat_map encodeProperty pairs ++ [x00].

(** ** Notions used in the statements about the extraction loop *)

(** The packing methods [parse] decodes. *)
Definition knownMethod (entry : HeaderEntry) : bool :=
  (packingMethod entry =? PACKING_METHOD_UNCOMPRESSED)
  || (packingMethod entry =? PACKING_METHOD_PACKED).

(** The entries that yield a record, and those that yield a warning. *)
Definition extracted (entry : HeaderEntry) : bool :=
  isScript entry && knownMethod entry.

Definition warned (entry : HeaderEntry) : bool :=
  isScript entry && negb (knownMethod entry).


(** A record whose derived fields agree with its path and content. *)
Definition consistent (r : ExtractedFile) : Prop :=
  name r = baseName (path r)
  /\ lines r = splitLines (content r)
  /\ size r = slength (content r).

(** ** Notions used in the statements about strings *)

(** The separators of [/[\\/]/]. *)
Definition isSeparator (c : Z) : bool := (c =? 0x5C) || (c =? 0x2F).

(** [lines.join('\n')], the inverse of the split. *)
Fixpoint joinWith (sep : Z) (l : list jsstring) : jsstring :=
  match l with
  | [] => []
  | x :: rest =>
      match rest with
      | [] => x
      | _ :: _ => x ++ sep :: joinWith sep rest
      end
  end.


(** ** Archives of files stored as they are *)

(** A file to store: the bytes of its name and its data. *)
Definition storedFile : Type := (Buffer * Buffer)%type.

(** The header entry of a stored file: packing method 0, both sizes the
    length of the data. *)
Definition storedHeader (f : storedFile) : Buffer :=
  encodeHeader (fst f) PACKING_METHOD_UNCOMPRESSED (blength (snd f)) 0 0
    (blength (snd f)).

(** The product entry that opens an archive, and the boundary marker. *)
Definition productHeader : Buffer :=
  encodeHeader [] PACKING_METHOD_PRODUCT 0 0 0 0.

Definition markerHeader : Buffer := encodeHeader [] 0 0 0 0 0.

(** An archive: product entry, property block, entry table, boundary
    marker, data blocks in table order. *)
Definition encodeArchive (properties : list (Buffer * Buffer))
  (stored : list storedFile) : Buffer :=
  productHeader ++ encodeProperties properties
  ++ flat_map storedHeader stored ++ markerHeader
  ++ flat_map snd stored.

(** The header entries [readHeaderEntry] returns for a table of stored
    files that starts at [offset]. *)
Fixpoint entriesFrom (offset : Z) (stored : list storedFile)
  : list HeaderEntry :=
  match stored with
  | [] => []
  | f :: rest =>
      let offset' := offset + blength (fst f) + 21 in
      {| fileName := toStringUtf8 (fst f);
         packingMethod := PACKING_METHOD_UNCOMPRESSED;
         originalSize := blength (snd f);
         reserved := 0;
         timeStamp := 0;
         dataSize := blength (snd f);
         newOffset := offset' |} :: entriesFrom offset' rest
  end.

(** The stored files [parse] takes for scripts, and their records. *)
Definition scriptFile (f : storedFile) : bool :=
  endsWith (toLowerCase (toStringUtf8 (fst f))) (lit ".c")
  || endsWith (toLowerCase (toStringUtf8 (fst f))) (lit ".cpp").

Definition storedRecord (f : storedFile) : ExtractedFile :=
  {| path := toStringUtf8 (fst f);
     name := baseName (toStringUtf8 (fst f));
     content := toStringUtf8 (snd f);
     lines := splitLines (toStringUtf8 (snd f));
     size := slength (toStringUtf8 (snd f)) |}.

(** A file that can be stored: a name with at least one byte and no zero
    byte, and data whose length fits 32 bits. *)
Definition storable (f : storedFile) : Prop :=
  fst f <> [] /\ noZero (fst f) /\ isU32 (blength (snd f)).

(** A property that can be stored. *)
Definition storableProperty (p : Buffer * Buffer) : Prop :=
  fst p <> [] /\ noZero (fst p) /\ noZero (snd p).

(** An archive without product entry: the entry table comes first. *)
Definition encodePlainArchive (stored : list storedFile) : Buffer :=
  flat_map storedHeader stored ++ markerHeader ++ flat_map snd stored.

(** ** The analyzer ([src/analyzer.js]): line numbers, summary, score *)

Module Analyzer.

(** [SEVERITY] of [src/rules.js]. *)
Definition CRITICAL : string := "CRITICAL".
Definition HIGH : string := "HIGH".
Definition MEDIUM : string := "MEDIUM".
Definition LOW : string := "LOW".
Definition INFO : string := "INFO".

(** An issue as [analyzeFile] builds it. *)
Record Issue : Type := mkIssue {
  ruleId : string;
  ruleName : string;
  severity : string;
  line : Z;
  message : string;
  description : string
}.

(** An element of [results.issues]. *)
Record FileIssues : Type := mkFileIssues {
  file : jsstring;
  issues : list Issue
}.

(** [results.summary] *)
Record Summary : Type := mkSummary {
  totalFiles : Z;
  totalIssues : Z;
  critical : Z;
  high : Z;
  medium : Z;
  low : Z;
  info : Z
}.

(** [getLineNumber(content, index)]:
    [content.substring(0, index).split('\n').length] *)
Definition getLineNumber (content : jsstring) (index : Z) : Z :=
  Z.of_nat (List.length (splitLines (firstn (Z.to_nat index) content))).

(** The body of the inner loop of [calculateSummary]:
    [totalIssues++] and the [switch] on [issue.severity]. *)
Definition countIssue (s : Summary) (issue : Issue) : Summary :=
  let s := {| totalFiles := totalFiles s;
              totalIssues := totalIssues s + 1;
              critical := critical s; high := high s; medium := medium s;
              low := low s; info := info s |} in
  if String.eqb (severity issue) CRITICAL then
    {| totalFiles := totalFiles s; totalIssues := totalIssues s;
       critical := critical s + 1; high := high s; medium := medium s;
       low := low s; info := info s |}
  else if String.eqb (severity issue) HIGH then
    {| totalFiles := totalFiles s; totalIssues := totalIssues s;
       critical := critical s; high := high s + 1; medium := medium s;
       low := low s; info := info s |}
  else if String.eqb (severity issue) MEDIUM then
    {| totalFiles := totalFiles s; totalIssues := totalIssues s;
       critical := critical s; high := high s; medium := medium s + 1;
       low := low s; info := info s |}
  else if String.eqb (severity issue) LOW then
    {| totalFiles := totalFiles s; totalIssues := totalIssues s;
       critical := critical s; high := high s; medium := medium s;
       low := low s + 1; info := info s |}
  else if String.eqb (severity issue) INFO then
    {| totalFiles := totalFiles s; totalIssues := totalIssues s;
       critical := critical s; high := high s; medium := medium s;
       low := low s; info := info s + 1 |}
  else s.

(** [calculateSummary()], on [results.summary] and [results.issues]. *)
Definition calculateSummary (summary : Summary) (results : list FileIssues)
  : Summary :=
  fold_left (fun s fileResult => fold_left countIssue (issues fileResult) s)
    results summary.

(** The weighted sum of [getScore], before [Math.min]. *)
Definition penalties (s : Summary) : Z :=
  0 + critical s * 20 + high s * 10 + medium s * 5 + low s * 2 + info s * 1.

(** [getScore()] *)
Definition getScore (s : Summary) : Z :=
  let penalties := Z.min (penalties s) 100 in
  Z.max 0 (100 - penalties).

(** [getRating()] *)
Definition getRating (s : Summary) : string :=
  let score := getScore s in
  if 90 <=? score then "EXCELLENT"
  else if 75 <=? score then "GOOD"
  else if 60 <=? score then "FAIR"
  else if 40 <=? score then "POOR"
  else "CRITICAL".

(** The issues of all files, in the order the loops visit them. *)
Definition allIssues (results : list FileIssues) : list Issue :=
  flat_map issues results.

(** The number of those issues whose severity is [sev]. *)
Definition countSeverity (sev : string) (l : list Issue) : Z :=
  Z.of_nat (List.length (filter (fun i => String.eqb (severity i) sev) l)).

(** One summary has no more issues of any severity than another. *)
Definition fewerIssues (s s' : Summary) : Prop :=
  critical s <= critical s' /\ high s <= high s' /\ medium s <= medium s'
  /\ low s <= low s' /\ info s <= info s'.

(** An element of [results.fileStats]. *)
Record FileStat : Type := mkFileStat {
  statFile : jsstring;
  statSize : Z;
  statLines : Z;
  issueCount : Z
}.

(** [this.results] *)
Record Results : Type := mkResults {
  summary : Summary;
  fileIssues : list FileIssues;
  fileStats : list FileStat
}.

(** [this.results] as the constructor sets it for [files]. *)
Definition newResults (files : list ExtractedFile) : Results :=
  {| summary := {| totalFiles := Z.of_nat (List.length files);
                   totalIssues := 0; critical := 0; high := 0; medium := 0;
                   low := 0; info := 0 |};
     fileIssues := [];
     fileStats := [] |}.

(** The body of the loop of [analyze()] (lines 36-49); [analyzeFile] is
    the rule engine, which works by regular expressions and is taken as
    it comes. *)
Definition analyzeOne (analyzeFile : ExtractedFile -> list Issue)
  (r : Results) (f : ExtractedFile) : Results :=
  let found := analyzeFile f in
  {| summary := summary r;
     fileIssues :=
       if 0 <? Z.of_nat (List.length found)
       then fileIssues r ++ [mkFileIssues (path f) found]
       else fileIssues r;
     fileStats :=
       fileStats r
       ++ [mkFileStat (path f) (size f) (Z.of_nat (List.length (lines f)))
             (Z.of_nat (List.length found))] |}.

(** [analyze()]: the loop over the files, then [calculateSummary()]. *)
Definition analyze (analyzeFile : ExtractedFile -> list Issue)
  (files : list ExtractedFile) (r : Results) : Results :=
  let r := fold_left (analyzeOne analyzeFile) files r in
  {| summary := calculateSummary (summary r) (fileIssues r);
     fileIssues := fileIssues r;
     fileStats := fileStats r |}.

(** The sum of [issueCount] over file statistics. *)
Definition totalIssueCount (stats : list FileStat) : Z :=
  fold_right (fun st acc => issueCount st + acc) 0 stats.

End Analyzer.

(** The statistics and the issue list [analyze] builds for a file. *)
Definition statOf (analyzeFile : ExtractedFile -> list Analyzer.Issue)
  (f : ExtractedFile) : Analyzer.FileStat :=
  Analyzer.mkFileStat (path f) (size f) (Z.of_nat (List.length (lines f)))
    (Z.of_nat (List.length (analyzeFile f))).

Definition issuesOf (analyzeFile : ExtractedFile -> list Analyzer.Issue)
  (f : ExtractedFile) : Analyzer.FileIssues :=
  Analyzer.mkFileIssues (path f) (analyzeFile f).

Definition hasIssues (analyzeFile : ExtractedFile -> list Analyzer.Issue)
  (f : ExtractedFile) : bool :=
  match analyzeFile f with [] => false | _ :: _ => true end.

(** What the summary gains from a list of issues. *)
Definition gains (s s' : Analyzer.Summary) (l : list Analyzer.Issue)
  : Prop :=
  Analyzer.totalFiles s' = Analyzer.totalFiles s
  /\ Analyzer.totalIssues s'
     = Analyzer.totalIssues s + Z.of_nat (List.length l)
  /\ Analyzer.critical s'
     = Analyzer.critical s + Analyzer.countSeverity Analyzer.CRITICAL l
  /\ Analyzer.high s'
     = Analyzer.high s + Analyzer.countSeverity Analyzer.HIGH l
  /\ Analyzer.medium s'
     = Analyzer.medium s + Analyzer.countSeverity Analyzer.MEDIUM l
  /\ Analyzer.low s'
     = Analyzer.low s + Analyzer.countSeverity Analyzer.LOW l
  /\ Analyzer.info s'
     = Analyzer.info s + Analyzer.countSeverity Analyzer.INFO l
  /\ Analyzer.countSeverity Analyzer.CRITICAL l
     + Analyzer.countSeverity Analyzer.HIGH l
     + Analyzer.countSeverity Analyzer.MEDIUM l
     + Analyzer.countSeverity Analyzer.LOW l
     + Analyzer.countSeverity Analyzer.INFO l
     <= Z.of_nat (List.length l).

(** ** Proof automation *)

(** Goals about the lengths of concatenated buffers. *)
Ltac blen :=
  unfold blength in *;
  repeat (rewrite ?length_app, ?repeat_length in *; cbn [List.length] in *);
  lia.

(** Goals that hinge on the outcome of integer comparisons. *)
Ltac zcases :=
  repeat match goal with
         | |- context [?a <=? ?b] => destruct (Z.leb_spec a b)
         | |- context [?a <? ?b] => destruct (Z.ltb_spec a b)
         | |- context [?a =? ?b] => destruct (Z.eqb_spec a b)
         end;
  cbn [andb orb negb]; try lia; try reflexivity.

(** * Properties *)

(** ** Buffers *)

Lemma length_setNth (n : nat) (v : byte) (l : list byte) :
  List.length (setNth n v l) = List.length l.
Proof.
  revert n; induction l as [|x l IH]; intros [|n]; simpl; auto.
Qed.

Lemma length_bset (buf : Buffer) (i : Z) (v : byte) :
  List.length (bset buf i v) = List.length buf.
Proof.
  unfold bset; destruct (inRange buf i); auto using length_setNth.
Qed.

Lemma blength_app (a b : Buffer) : blength (a ++ b) = blength a + blength b.
Proof. unfold blength; rewrite length_app; lia. Qed.

Lemma blength_nonneg (b : Buffer) : 0 <= blength b.
Proof. unfold blength; lia. Qed.

Lemma inRange_true (buf : Buffer) (i : Z) :
  inRange buf i = true <-> 0 <= i < blength buf.
Proof. unfold inRange; rewrite andb_true_iff; lia. Qed.

Lemma setNth_middle (d : list byte) (z v : byte) (zs : list byte) :
  setNth (List.length d) v (d ++ z :: zs) = d ++ v :: zs.
Proof. induction d as [|x d IH]; simpl; congruence. Qed.

Lemma bget_middle (pre : Buffer) (b : byte) (post : Buffer) :
  bget (pre ++ b :: post) (blength pre) = Some b.
Proof.
  unfold bget.
  replace (inRange (pre ++ b :: post) (blength pre)) with true.
  - unfold blength; rewrite Nat2Z.id, nth_error_app2, Nat.sub_diag by lia.
    reflexivity.
  - symmetry; apply inRange_true.
    rewrite blength_app; unfold blength; simpl List.length; lia.
Qed.

Lemma bset_middle (d : Buffer) (z v : byte) (zs : Buffer) :
  bset (d ++ z :: zs) (blength d) v = d ++ v :: zs.
Proof.
  unfold bset.
  replace (inRange (d ++ z :: zs) (blength d)) with true.
  - unfold blength; rewrite Nat2Z.id; apply setNth_middle.
  - symmetry; apply inRange_true.
    rewrite blength_app; unfold blength; simpl List.length; lia.
Qed.

(** ** The loops of the decompressor, unfolded once *)

Lemma padLoop_eq (fuel : nat) (rpos rlen : Z) (s : lzh) :
  padLoop fuel rpos rlen s =
  if rpos <? 0 then
    match fuel with
    | O => OutOfFuel s
    | S f => padLoop f rpos (rlen - 1) (storeByte x20 s)
    end
  else Returned (s, rlen).
Proof. destruct fuel; reflexivity. Qed.

Lemma roundLoop_eq (fuel : nat) (data : Buffer) (size : Z) (rounds : nat)
  (s : lzh) :
  roundLoop fuel data size rounds s =
  if (outputPos s <? size) && (inputPos s <? blength data)
  then
    match rounds with
    | O => OutOfFuel s
    | S r =>
        s2 <- bitLoop fuel data size 8
                (toInt (bget data (inputPos s))) 0
                {| output := output s; outputPos := outputPos s;
                   inputPos := inputPos s + 1;
                   reads := inputPos s :: reads s |} ;;
        roundLoop fuel data size r s2
    end
  else Returned s.
Proof. destruct rounds; reflexivity. Qed.

(** The padding loop leaves at once when the source position is not
    negative... *)
Lemma padLoop_nonneg (fuel : nat) (rpos rlen : Z) (s : lzh) :
  0 <= rpos -> padLoop fuel rpos rlen s = Returned (s, rlen).
Proof.
  intros H; rewrite padLoop_eq.
  destruct (Z.ltb_spec rpos 0); [lia | reflexivity].
Qed.

(** ... and never leaves when it is: whatever the budget, the loop is
    still running when the budget is spent. *)
Lemma padLoop_negative (fuel : nat) (rpos rlen : Z) (s : lzh) :
  rpos < 0 -> exists s', padLoop fuel rpos rlen s = OutOfFuel s'.
Proof.
  intros H; revert rlen s; induction fuel as [|f IH]; intros rlen s;
    rewrite padLoop_eq; destruct (Z.ltb_spec rpos 0); try lia.
  - now exists s.
  - apply IH.
Qed.

(** A back-reference whose source position is negative while the end of
    its source range is not enters the padding loop, for good. *)
Lemma backReference_spins (fuel : nat) (data : Buffer) (s : lzh)
  (pointer : Z) :
  readUInt16LE data (inputPos s) = Some pointer ->
  outputPos s - distance pointer < 0 ->
  0 <= outputPos s - distance pointer + copyLength pointer ->
  exists s', backReference fuel data s = OutOfFuel s'.
Proof.
  intros Hp Hneg Hreach.
  unfold backReference; rewrite Hp.
  unfold distance, copyLength in *.
  cbv zeta.
  match goal with
  | |- context [if ?c then _ else _] =>
      replace c with false by (symmetry; apply Z.ltb_ge; lia)
  end.
  match goal with
  | |- context [padLoop ?n ?r ?l ?x] =>
      destruct (padLoop_negative n r l x) as [s' ->]; [lia|]
  end.
  exists s'; reflexivity.
Qed.

Lemma bitLoop_spins (fuel : nat) (data : Buffer) (size : Z) (n : nat)
  (format i : Z) (s : lzh) :
  (outputPos s <? size) && (inputPos s <? blength data - 2) = true ->
  (exists s', subOperation fuel data format i s = OutOfFuel s') ->
  exists s', bitLoop fuel data size (S n) format i s = OutOfFuel s'.
Proof.
  intros Hg [s' Hs]; simpl; rewrite Hg, Hs; exists s'; reflexivity.
Qed.

Lemma roundLoop_spins (fuel : nat) (data : Buffer) (size : Z) (r : nat)
  (s : lzh) :
  (outputPos s <? size) && (inputPos s <? blength data) = true ->
  (exists s',
      bitLoop fuel data size 8 (toInt (bget data (inputPos s))) 0
        {| output := output s; outputPos := outputPos s;
           inputPos := inputPos s + 1;
           reads := inputPos s :: reads s |} = OutOfFuel s') ->
  exists s', roundLoop fuel data size (S r) s = OutOfFuel s'.
Proof.
  intros Hg [s' Hs]; rewrite roundLoop_eq, Hg, Hs; exists s'; reflexivity.
Qed.

(** C1. [decompressLZH] does not return for every input: on the four
    compressed bytes 00 01 00 00 with [originalSize = 1] the first
    sub-operation is a back-reference of distance 1 and length 3 at
    output position 0, its padding loop never ends, and the call is still
    running whatever budget of iterations it is given. *)
Theorem decompressLZH_spins :
  forall fuel : nat,
    exists s, decompressLZH fuel [x00; x01; x00; x00] 1 = OutOfFuel s.
Proof.
  intros fuel.
  assert (H : exists s,
             decompressLZH_run fuel [x00; x01; x00; x00] 1 = OutOfFuel s).
  { unfold decompressLZH_run.
    destruct fuel as [|f]; [eexists; reflexivity|].
    apply roundLoop_spins; [reflexivity|].
    apply bitLoop_spins; [reflexivity|].
    unfold subOperation.
    replace (toInt (bget [x00; x01; x00; x00] (inputPos (lzhInit 1))))
      with 0 by reflexivity.
    cbv beta zeta; change (Z.land (Z.shiftr 0 0) 1 =? 0) with true.
    cbv iota.
    apply backReference_spins with (pointer := 1);
      [reflexivity | reflexivity | discriminate]. }
  destruct H as [s H]; exists s.
  unfold decompressLZH; rewrite H; reflexivity.
Qed.

(** C3. A back-reference sub-operation whose source position [rpos] is
    negative while [rpos + rlen] is not (the negative reach is at most the
    copy length) never completes: the padding loop tests [rpos], which it
    does not advance, so neither the padding stops after [-rpos] bytes nor
    the copy from position 0 is reached. *)
Theorem subOperation_negative_reach_spins :
  forall (fuel : nat) (data : Buffer) (format i : Z) (s : lzh) (pointer : Z),
    Z.land (Z.shiftr format i) 1 = 0 ->
    readUInt16LE data (inputPos s) = Some pointer ->
    outputPos s - distance pointer < 0 ->
    0 <= outputPos s - distance pointer + copyLength pointer ->
    exists s', subOperation fuel data format i s = OutOfFuel s'.
Proof.
  intros fuel data format i s pointer Hbit Hp Hneg Hreach.
  unfold subOperation; cbv zeta; rewrite Hbit; cbn [Z.eqb].
  eapply backReference_spins; eauto.
Qed.

Lemma subOperation_negative_reach_spins_witness :
  exists s',
    subOperation 7 [x01; x00] 0 0
      {| output := [x00; x00; x00]; outputPos := 0; inputPos := 0;
         reads := [] |} = OutOfFuel s'.
Proof.
  apply (subOperation_negative_reach_spins 7 [x01; x00] 0 0
           {| output := [x00; x00; x00]; outputPos := 0; inputPos := 0;
              reads := [] |} 1).
  - reflexivity.
  - reflexivity.
  - vm_compute; reflexivity.
  - vm_compute; discriminate.
Defined.

(** ** Bounds of the decompressor's accesses *)

Lemma inBounds_storeByte data size v s :
  inBounds data size s -> inBounds data size (storeByte v s).
Proof.
  intros (Hl & Hr & Hi); repeat split; simpl; auto.
  now rewrite length_bset.
Qed.

Lemma inBounds_fillSpaces data size n s :
  inBounds data size s -> inBounds data size (fillSpaces n s).
Proof.
  revert s; induction n; simpl; auto using inBounds_storeByte.
Qed.

Lemma inBounds_copyLoop data size n copyPos s :
  inBounds data size s -> inBounds data size (copyLoop n copyPos s).
Proof.
  revert copyPos s; induction n; simpl; auto using inBounds_storeByte.
Qed.

Lemma inBounds_padLoop data size fuel rpos rlen s :
  inBounds data size s ->
  match padLoop fuel rpos rlen s with
  | Returned (s', _) => inBounds data size s'
  | Thrown _ => False
  | OutOfFuel s' => inBounds data size s'
  end.
Proof.
  revert rlen s; induction fuel as [|f IH]; intros rlen s H;
    rewrite padLoop_eq; destruct (rpos <? 0); auto.
  apply IH; auto using inBounds_storeByte.
Qed.

Lemma inBounds_literal data size s :
  inBounds data size s -> inputPos s < blength data ->
  inBounds data size (literal data s).
Proof.
  intros (Hl & Hr & Hi) Hlt; repeat split; simpl; try lia.
  - now rewrite length_bset.
  - constructor; auto; lia.
Qed.

Lemma bounded_backReference fuel data size s :
  inBounds data size s -> inputPos s < blength data - 2 ->
  bounded data size (backReference fuel data s).
Proof.
  intros (Hl & Hr & Hi) Hlt; unfold backReference, readUInt16LE.
  replace ((0 <=? inputPos s) && (inputPos s + 2 <=? blength data))
    with true by (symmetry; apply andb_true_iff; lia).
  cbv zeta.
  match goal with
  | |- context [padLoop _ _ _ ?x] =>
      assert (H1 : inBounds data size x)
        by (repeat split; simpl; try lia;
            repeat (constructor; try lia); auto)
  end.
  match goal with |- context [if ?c then _ else _] => destruct c end.
  - simpl; auto using inBounds_fillSpaces.
  - match goal with
    | |- context [padLoop ?n ?r ?l ?x] =>
        pose proof (inBounds_padLoop data size n r l x H1) as H2;
          destruct (padLoop n r l x) as [[s2 rlen']| |s2]
    end; simpl; auto.
    destruct (0 <? rlen'); simpl; auto using inBounds_copyLoop.
Qed.

Lemma bounded_subOperation fuel data size format i s :
  inBounds data size s -> inputPos s < blength data - 2 ->
  bounded data size (subOperation fuel data format i s).
Proof.
  intros H Hlt; unfold subOperation; cbv zeta.
  destruct (_ =? 0).
  - now apply bounded_backReference.
  - simpl; apply inBounds_literal; auto; lia.
Qed.

Lemma bounded_bitLoop fuel data size n format i s :
  inBounds data size s ->
  bounded data size (bitLoop fuel data size n format i s).
Proof.
  revert i s; induction n as [|n IH]; intros i s H; simpl; auto.
  destruct (outputPos s <? size); simpl; auto.
  destruct (Z.ltb_spec (inputPos s) (blength data - 2)); simpl; auto.
  pose proof (bounded_subOperation fuel data size format i s H) as Hs.
  destruct (subOperation fuel data format i s); simpl in *; auto.
Qed.

Lemma bounded_roundLoop fuel data size rounds s :
  inBounds data size s ->
  bounded data size (roundLoop fuel data size rounds s).
Proof.
  revert s; induction rounds as [|r IH]; intros s H; rewrite roundLoop_eq;
    destruct (outputPos s <? size); cbn [andb bounded]; auto;
    destruct (Z.ltb_spec (inputPos s) (blength data)); cbn [bounded]; auto.
  match goal with
  | |- context [bitLoop _ _ _ _ ?f ?j ?x] =>
      assert (H1 : inBounds data size x);
        [| pose proof (bounded_bitLoop fuel data size 8 f j x H1) as H2;
           destruct (bitLoop fuel data size 8 f j x) ]
  end; cbn [bind bounded] in *; auto.
  destruct H as (Hl & Hr & Hi); repeat split; simpl; auto; try lia.
Qed.

(** The bounds hold from the first state of a run on. *)
Lemma decompressLZH_bounds :
  forall (fuel : nat) (compressedData : Buffer) (originalSize : Z),
    match decompressLZH_run fuel compressedData originalSize with
    | Returned s | OutOfFuel s =>
        List.length (output s) = Z.to_nat originalSize
        /\ Forall (fun i => 0 <= i < blength compressedData) (reads s)
    | Thrown _ => False
    end.
Proof.
  intros fuel data size.
  assert (H : inBounds data size (lzhInit size)).
  { repeat split; simpl; try lia; [apply repeat_length | constructor]. }
  pose proof (bounded_roundLoop fuel data size fuel _ H) as Hb.
  unfold decompressLZH_run.
  destruct (roundLoop fuel data size fuel (lzhInit size));
    simpl in Hb; try tauto; destruct Hb as (? & ? & ?); auto.
Qed.

(** C4. Along every run of the round loop, whether it returns or is still
    running when the budget is spent, the output buffer has exactly
    [originalSize] bytes (a store at an index from [originalSize] on is
    dropped by the buffer and nothing is written there) and every index
    at which the compressed input was read lies inside the input; the
    bounds-checked 16-bit read never throws. *)
Theorem decompressLZH_in_bounds :
  forall (fuel : nat) (compressedData : Buffer) (originalSize : Z),
    match decompressLZH_run fuel compressedData originalSize with
    | Returned s | OutOfFuel s =>
        List.length (output s) = Z.to_nat originalSize
        /\ Forall (fun i => 0 <= i < blength compressedData) (reads s)
    | Thrown _ => False
    end.
Proof. exact decompressLZH_bounds. Qed.

(** ** The all-literal path *)

Lemma bit_of_ff (i : Z) :
  0 <= i < 8 -> (Z.land (Z.shiftr 255 i) 1 =? 0) = false.
Proof.
  intros H.
  assert (i = 0 \/ i = 1 \/ i = 2 \/ i = 3 \/ i = 4 \/ i = 5 \/ i = 6
          \/ i = 7) as Hi by lia.
  repeat (destruct Hi as [-> | Hi]; [reflexivity|]); subst; reflexivity.
Qed.

Lemma bitLoop_guard_false fuel data size n format i s :
  (outputPos s <? size) && (inputPos s <? blength data - 2) = false ->
  bitLoop fuel data size n format i s = Returned s.
Proof. intros H; destruct n; simpl; [|rewrite H]; reflexivity. Qed.

Lemma roundLoop_done fuel data size rounds s :
  (outputPos s <? size) && (inputPos s <? blength data) = false ->
  roundLoop fuel data size rounds s = Returned s.
Proof. intros H; rewrite roundLoop_eq, H; reflexivity. Qed.

(** One literal sub-operation, on a state whose output is [d] followed
    by bytes yet to be produced and whose input cursor is after [pre]. *)
Lemma bitLoop_literal fuel size n i d z zs pre b post rd :
  0 <= i < 8 -> (2 <= List.length post)%nat ->
  size = blength (d ++ z :: zs) ->
  bitLoop fuel (pre ++ b :: post) size (S n) 255 i
    (mkLzh (d ++ z :: zs) (blength d) (blength pre) rd)
  = bitLoop fuel (pre ++ b :: post) size n 255 (i + 1)
      (mkLzh ((d ++ [b]) ++ zs) (blength (d ++ [b])) (blength (pre ++ [b]))
         (blength pre :: rd)).
Proof.
  intros Hi Hpost ->.
  cbn [bitLoop outputPos inputPos].
  replace ((blength d <? blength (d ++ z :: zs))
           && (blength pre <? blength (pre ++ b :: post) - 2)) with true.
  - unfold subOperation; cbv zeta; rewrite (bit_of_ff i Hi).
    cbn [bind]; unfold literal; cbn [output outputPos inputPos reads].
    rewrite bget_middle, bset_middle; cbn [toUint8].
    rewrite !blength_app, <- app_assoc; reflexivity.
  - symmetry; apply andb_true_iff; split; apply Z.ltb_lt;
      rewrite blength_app; unfold blength; cbn [List.length]; lia.
Qed.

(** A run of literal sub-operations. *)
Lemma bitLoop_literals fuel size n l :
  forall i d zl zr pre post rd,
    List.length zl = List.length l ->
    0 <= i -> i + blength l <= 8 -> (2 <= List.length post)%nat ->
    size = blength (d ++ zl ++ zr) ->
    exists rd',
      bitLoop fuel (pre ++ l ++ post) size (List.length l + n) 255 i
        (mkLzh (d ++ zl ++ zr) (blength d) (blength pre) rd)
      = bitLoop fuel (pre ++ l ++ post) size n 255 (i + blength l)
          (mkLzh (d ++ l ++ zr) (blength (d ++ l)) (blength (pre ++ l)) rd').
Proof.
  induction l as [|b l IH]; intros i d zl zr pre post rd Hz Hi Hl Hpost Hs.
  - destruct zl; [|discriminate]. exists rd.
    cbn [List.length Nat.add app]; unfold blength at 3; cbn [List.length].
    rewrite Z.add_0_r, !app_nil_r; reflexivity.
  - destruct zl as [|z zl]; [discriminate|]. injection Hz as Hz.
    assert (Hb : blength (b :: l) = 1 + blength l)
      by (unfold blength; cbn [List.length]; lia).
    cbn [List.length Nat.add]. change ((b :: l) ++ post) with (b :: l ++ post).
    change ((z :: zl) ++ zr) with (z :: zl ++ zr) in *.
    pose proof (blength_nonneg l) as Hl0.
    rewrite bitLoop_literal;
      [| lia | rewrite length_app; lia | exact Hs].
    replace (pre ++ b :: l ++ post) with ((pre ++ [b]) ++ l ++ post)
      by (rewrite <- app_assoc; reflexivity).
    destruct (IH (i + 1) (d ++ [b]) zl zr (pre ++ [b]) post (blength pre :: rd))
      as [rd' E]; auto; try lia.
    { rewrite Hs; blen. }
    exists rd'. rewrite E.
    rewrite <- !app_assoc, Hb. cbn [app].
    replace (i + 1 + blength l) with (i + (1 + blength l)) by lia.
    reflexivity.
Qed.

Lemma length_literalsOf (b : block) : List.length (literalsOf b) = 8%nat.
Proof. destruct b as [[[[[[[? ?] ?] ?] ?] ?] ?] ?]; reflexivity. Qed.

Lemma length_literalBytes (blocks : list block) :
  List.length (literalBytes blocks) = (8 * List.length blocks)%nat.
Proof.
  induction blocks as [|b bs IH]; [reflexivity|].
  unfold literalBytes in *; cbn [flat_map].
  rewrite length_app, length_literalsOf, IH; cbn [List.length]; lia.
Qed.

(** One round over a control byte [0xff] whose 8 literals are followed by
    at least two more input bytes. *)
Lemma roundLoop_block fuel size r l d zl zr pre post rd :
  List.length l = 8%nat -> List.length zl = 8%nat ->
  (2 <= List.length post)%nat ->
  size = blength (d ++ zl ++ zr) ->
  exists rd',
    roundLoop fuel (pre ++ (xff :: l) ++ post) size (S r)
      (mkLzh (d ++ zl ++ zr) (blength d) (blength pre) rd)
    = roundLoop fuel (pre ++ (xff :: l) ++ post) size r
        (mkLzh (d ++ l ++ zr) (blength (d ++ l))
           (blength (pre ++ xff :: l)) rd').
Proof.
  intros Hl Hz Hpost Hs.
  rewrite roundLoop_eq; cbn [outputPos inputPos output reads].
  replace ((blength d <? size)
           && (blength pre <? blength (pre ++ (xff :: l) ++ post)))
    with true by (symmetry; apply andb_true_iff; split; apply Z.ltb_lt; blen).
  change ((xff :: l) ++ post) with (xff :: l ++ post).
  rewrite bget_middle; cbn [toInt].
  change (u8 xff) with 255.
  replace (blength pre + 1) with (blength (pre ++ [xff])) by blen.
  replace (pre ++ xff :: l ++ post) with ((pre ++ [xff]) ++ l ++ post)
    by (rewrite <- app_assoc; reflexivity).
  destruct (bitLoop_literals fuel size 0 l 0 d zl zr (pre ++ [xff]) post
              (blength pre :: rd)) as [rd' E]; try lia; auto; try blen.
  exists rd'.
  replace (List.length l + 0)%nat with 8%nat in E by lia.
  rewrite E; cbn [bitLoop bind].
  rewrite <- (app_assoc pre [xff] l); reflexivity.
Qed.

(** The rounds over a sequence of such blocks. *)
Lemma roundLoop_blocks fuel size r blocks :
  forall d zr pre post rd,
    (2 <= List.length post)%nat ->
    size = blength (d ++ repeat x00 (8 * List.length blocks) ++ zr) ->
    exists rd',
      roundLoop fuel (pre ++ allLiteral blocks ++ post) size
        (List.length blocks + r)
        (mkLzh (d ++ repeat x00 (8 * List.length blocks) ++ zr)
           (blength d) (blength pre) rd)
      = roundLoop fuel (pre ++ allLiteral blocks ++ post) size r
          (mkLzh (d ++ literalBytes blocks ++ zr)
             (blength (d ++ literalBytes blocks))
             (blength (pre ++ allLiteral blocks)) rd').
Proof.
  induction blocks as [|b bs IH]; intros d zr pre post rd Hpost Hs.
  - exists rd; cbn [List.length Nat.add Nat.mul repeat allLiteral
                      literalBytes flat_map app].
    rewrite !app_nil_r; reflexivity.
  - cbn [List.length] in *.
    replace (8 * S (List.length bs))%nat
      with (8 + 8 * List.length bs)%nat in * by lia.
    rewrite repeat_app, <- app_assoc in *.
    unfold allLiteral, literalBytes in *; cbn [flat_map].
    fold (allLiteral bs) in *; fold (literalBytes bs) in *.
    unfold encodeBlock.
    rewrite <- !app_assoc.
    destruct (roundLoop_block fuel size (List.length bs + r) (literalsOf b)
                d (repeat x00 8) (repeat x00 (8 * List.length bs) ++ zr)
                pre (allLiteral bs ++ post) rd) as [rd1 E1];
      auto using length_literalsOf; try (rewrite length_app; lia).
    cbn [Nat.add]; rewrite E1.
    replace (pre ++ (xff :: literalsOf b) ++ allLiteral bs ++ post)
      with ((pre ++ xff :: literalsOf b) ++ allLiteral bs ++ post)
      by (rewrite <- app_assoc; reflexivity).
    replace (d ++ literalsOf b ++ repeat x00 (8 * List.length bs) ++ zr)
      with ((d ++ literalsOf b) ++ repeat x00 (8 * List.length bs) ++ zr)
      by (rewrite <- app_assoc; reflexivity).
    destruct (IH (d ++ literalsOf b) zr (pre ++ xff :: literalsOf b) post rd1)
      as [rd2 E2]; auto.
    { rewrite Hs. pose proof (length_literalsOf b). blen. }
    exists rd2; rewrite E2.
    rewrite <- !app_assoc; reflexivity.
Qed.


Lemma alloc_blocks (n : nat) :
  alloc (8 * Z.of_nat n) = repeat x00 (8 * n).
Proof. unfold alloc; f_equal; lia. Qed.

(** All-literal blocks followed by at least two more bytes: the output is
    the literal bytes. *)
Lemma literal_run_trailer (blocks : list block) (trailer : Buffer)
  (fuel : nat) :
  (2 <= List.length trailer)%nat -> (List.length blocks <= fuel)%nat ->
  exists s,
    decompressLZH_run fuel (allLiteral blocks ++ trailer)
      (8 * Z.of_nat (List.length blocks)) = Returned s
    /\ output s = literalBytes blocks.
Proof.
  intros Ht Hf.
  set (size := 8 * Z.of_nat (List.length blocks)).
  destruct (roundLoop_blocks fuel size (fuel - List.length blocks) blocks
              [] [] [] trailer []) as [rd E]; auto.
  { unfold size; blen. }
  replace (List.length blocks + (fuel - List.length blocks))%nat with fuel
    in E by lia.
  cbn [app] in E; rewrite app_nil_r in E.
  unfold decompressLZH_run, lzhInit; fold size.
  unfold size at 2; rewrite alloc_blocks.
  change 0 with (blength []) at 1 2. rewrite E.
  rewrite roundLoop_done.
  - eexists; split; [reflexivity|]; cbn [output]; apply app_nil_r.
  - cbn [outputPos]; apply andb_false_iff; left; apply Z.ltb_ge.
    unfold size, blength; rewrite length_literalBytes; lia.
Qed.





(** ** More budget does not change how a run ends *)










Lemma entryLoop_settles buffer f :
  forall f' o acc, (f <= f')%nat ->
    settles (entryLoop f buffer o acc) (entryLoop f' buffer o acc).
Proof.
  induction f as [|f IH]; intros f' o acc Hf.
  - cbn [entryLoop].
    destruct (readHeaderEntry buffer o) as [h| |] eqn:E;
      [| destruct f'; cbn [entryLoop]; rewrite E; reflexivity | exact I].
    destruct (isEmpty (fileName h)) eqn:En; [|exact I].
    destruct f'; cbn [entryLoop]; rewrite E, En; reflexivity.
  - destruct f' as [|f']; [lia|].
    cbn [entryLoop].
    destruct (readHeaderEntry buffer o) as [h| |]; try reflexivity.
    destruct (isEmpty (fileName h)); [reflexivity | apply IH; lia].
Qed.




(** ** The byte cursor *)

Lemma u8_zero (b : byte) : u8 b = 0 -> b = x00.
Proof. destruct b; intros H; try reflexivity; discriminate H. Qed.

Lemma notZero_false (b : byte) : notZero (Some b) = false -> b = x00.
Proof.
  unfold notZero; intros H; apply u8_zero.
  apply negb_false_iff in H; now apply Z.eqb_eq.
Qed.

Lemma notZero_true (b : byte) : notZero (Some b) = true -> b <> x00.
Proof. intros H ->; discriminate H. Qed.

(** What the scan returns: the bytes stepped over are not zero, and the
    scan stopped on a zero byte or at the end of the bytes. *)
Lemma scanCString_spec (rest : Buffer) :
  forall e,
    let e' := scanCString rest e in
    e <= e' <= e + blength rest
    /\ (forall k b, (k < Z.to_nat (e' - e))%nat ->
                    nth_error rest k = Some b -> b <> x00)
    /\ (nth_error rest (Z.to_nat (e' - e)) = Some x00
        \/ e' = e + blength rest).
Proof.
  induction rest as [|b tl IH]; intros e; cbn zeta.
  - cbn [scanCString]; unfold blength; cbn [List.length].
    replace (e - e) with 0 by lia.
    split; [lia | split; [intros k b Hk; cbn in Hk; lia | right; lia]].
  - cbn [scanCString].
    assert (Hb : blength (b :: tl) = 1 + blength tl) by blen.
    pose proof (blength_nonneg tl) as Hn.
    destruct (notZero (Some b)) eqn:Hz.
    + specialize (IH (e + 1)); cbn zeta in IH.
      destruct IH as (Hr & Hnz & Hstop).
      set (e' := scanCString tl (e + 1)) in *.
      assert (Hk : Z.to_nat (e' - e) = S (Z.to_nat (e' - (e + 1)))) by lia.
      split; [lia | split].
      * intros [|k] c Hlt; cbn [nth_error].
        -- intros [= <-]; now apply notZero_true.
        -- apply Hnz; lia.
      * rewrite Hk; cbn [nth_error].
        destruct Hstop as [Hs | Hs]; [now left | right; lia].
    + apply notZero_false in Hz; subst b.
      replace (e - e) with 0 by lia.
      split; [lia | split; [intros k c Hk; cbn in Hk; lia | now left]].
Qed.

Lemma bget_skipn (buffer : Buffer) (o : nat) (k : nat) (b : byte) :
  nth_error (skipn o buffer) k = Some b ->
  bget buffer (Z.of_nat o + Z.of_nat k) = Some b.
Proof.
  intros H; rewrite nth_error_skipn in H.
  assert (Hlt : (o + k < List.length buffer)%nat)
    by (apply nth_error_Some; congruence).
  unfold bget.
  replace (inRange buffer (Z.of_nat o + Z.of_nat k)) with true
    by (symmetry; apply inRange_true; unfold blength; lia).
  now replace (Z.to_nat (Z.of_nat o + Z.of_nat k)) with (o + k)%nat by lia.
Qed.

Lemma blength_skipn (buffer : Buffer) (o : nat) :
  blength (skipn o buffer) = Z.max 0 (blength buffer - Z.of_nat o).
Proof. unfold blength; rewrite length_skipn; lia. Qed.

(** C10, as stated, fails beyond the end of the buffer: no zero byte lies
    at or after offset 5 of the empty buffer, and the new offset is 6, not
    [buffer.length + 1 = 1]. *)
Lemma readCString_counterexample :
  ~ (forall (buffer : Buffer) (offset : Z),
        (forall i b, offset <= i -> bget buffer i = Some b -> b <> x00) ->
        CString.newOffset (readCString buffer offset) = blength buffer + 1).
Proof.
  intros H; specialize (H [] 5).
  assert (Hn : forall i b, 5 <= i -> bget [] i = Some b -> b <> x00).
  { intros i b _ Hb; unfold bget in Hb.
    destruct (inRange [] i) eqn:Hi; [|discriminate].
    apply inRange_true in Hi; cbn in Hi; lia. }
  specialize (H Hn); vm_compute in H; discriminate.
Qed.

(** The facts about [readCString] the rest of the development uses. *)
Lemma readCString_facts :
  forall (buffer : Buffer) (offset : Z),
    let r := readCString buffer offset in
    let end_ := CString.newOffset r - 1 in
    CString.value r = toStringUtf8 (slice buffer offset end_)
    /\ Z.max 0 offset <= end_ <= Z.max offset (blength buffer)
    /\ (forall i, Z.max 0 offset <= i < end_ ->
                  exists b, bget buffer i = Some b /\ b <> x00)
    /\ (bget buffer end_ = Some x00
        \/ end_ = Z.max offset (blength buffer)
           /\ forall i b, offset <= i -> bget buffer i = Some b -> b <> x00)
    /\ (blength buffer <= offset ->
        CString.value r = [] /\ CString.newOffset r = offset + 1).
Proof.
  intros buffer offset; cbn zeta.
  unfold readCString; cbn [CString.value CString.newOffset].
  set (o := Z.to_nat offset).
  set (rest := skipn o buffer).
  set (e0 := Z.max 0 offset).
  assert (Ho : Z.of_nat o = e0) by (unfold o, e0; lia).
  destruct (scanCString_spec rest e0) as (Hr & Hnz & Hstop).
  set (e := scanCString rest e0) in *.
  replace (e + 1 - 1) with e by lia.
  assert (Hlen : blength rest = Z.max 0 (blength buffer - e0))
    by (unfold rest; rewrite blength_skipn, Ho; reflexivity).
  pose proof (blength_nonneg buffer) as Hb0.
  assert (Hin : forall i, e0 <= i < e + 1 -> i < e0 + blength rest ->
                          exists b, nth_error rest (Z.to_nat (i - e0)) = Some b).
  { intros i Hi Hlt.
    destruct (nth_error rest (Z.to_nat (i - e0))) as [b|] eqn:E; [eauto|].
    apply nth_error_None in E; unfold blength in Hlt; lia. }
  split; [reflexivity|].
  split; [unfold e0 in *; lia|].
  split.
  { intros i Hi.
    destruct (Hin i) as [b Hb]; [lia | lia |].
    exists b; split.
    - replace i with (Z.of_nat o + Z.of_nat (Z.to_nat (i - e0))) by lia.
      now apply bget_skipn.
    - apply (Hnz (Z.to_nat (i - e0)) b); [lia | exact Hb]. }
  split.
  { destruct Hstop as [Hs | Hs].
    - left.
      replace e with (Z.of_nat o + Z.of_nat (Z.to_nat (e - e0))) at 1 by lia.
      now apply bget_skipn.
    - right; split; [unfold e0 in *; lia|].
      intros i b Hi Hb Hz; subst b.
      assert (Hri : 0 <= i < blength buffer).
      { unfold bget in Hb; destruct (inRange buffer i) eqn:E;
          [now apply inRange_true | discriminate]. }
      destruct (Hin i) as [c Hnth];
        [unfold e0 in *; lia | unfold e0 in *; lia |].
      pose proof (bget_skipn buffer o _ c Hnth) as Hget.
      replace (Z.of_nat o + Z.of_nat (Z.to_nat (i - e0))) with i in Hget
        by (unfold e0 in *; lia).
      assert (c = x00) by congruence; subst c.
      apply (Hnz (Z.to_nat (i - e0)) x00);
        [unfold e0 in *; lia | exact Hnth | reflexivity]. }
  intros Hge.
  assert (He : e = offset) by (unfold e0 in *; lia).
  rewrite He; split; [|reflexivity].
  unfold slice; replace (Z.to_nat (offset - Z.max 0 offset)) with 0%nat by lia.
  reflexivity.
Qed.

(** C10, amended.  [readCString] is total and throws nothing.  With [end]
    the new offset less one: the value is the UTF-8 decoding of the bytes
    from [offset] up to [end]; none of these bytes is zero; and either
    the byte at [end] is the zero terminator, or there is no zero byte at
    or after [offset] and [end] is the larger of [offset] and
    [buffer.length].  So without a terminator the new offset is
    [buffer.length + 1] for an offset up to the end of the buffer and
    [offset + 1] for an offset beyond it; and a call at or beyond the end
    of the buffer yields the empty string, as a boundary marker does. *)
Theorem readCString_spec :
  forall (buffer : Buffer) (offset : Z),
    let r := readCString buffer offset in
    let end_ := CString.newOffset r - 1 in
    CString.value r = toStringUtf8 (slice buffer offset end_)
    /\ Z.max 0 offset <= end_ <= Z.max offset (blength buffer)
    /\ (forall i, Z.max 0 offset <= i < end_ ->
                  exists b, bget buffer i = Some b /\ b <> x00)
    /\ (bget buffer end_ = Some x00
        \/ end_ = Z.max offset (blength buffer)
           /\ forall i b, offset <= i -> bget buffer i = Some b -> b <> x00)
    /\ (blength buffer <= offset ->
        CString.value r = [] /\ CString.newOffset r = offset + 1).
Proof. exact readCString_facts. Qed.

(** ** The header and property readers *)

Lemma readCString_advances (buffer : Buffer) (o : Z) :
  o < CString.newOffset (readCString buffer o).
Proof.
  destruct (readCString_facts buffer o) as (_ & H & _); cbn zeta in H; lia.
Qed.

Lemma readCString_past_end (buffer : Buffer) (o : Z) :
  blength buffer <= o -> CString.value (readCString buffer o) = [].
Proof.
  intros H; destruct (readCString_facts buffer o) as (_ & _ & _ & _ & E).
  now apply E.
Qed.

Lemma readUInt32LE_inside (buffer : Buffer) (o v : Z) :
  readUInt32LE buffer o = Some v -> 0 <= o /\ o + 4 <= blength buffer.
Proof.
  unfold readUInt32LE.
  destruct ((0 <=? o) && (o + 4 <=? blength buffer)) eqn:E; [|discriminate].
  apply andb_true_iff in E; lia.
Qed.

(** A header entry that is read lies inside the buffer, after its name. *)
Lemma readHeaderEntry_Returned (buffer : Buffer) (o : Z) (h : HeaderEntry) :
  readHeaderEntry buffer o = Returned h ->
  fileName h = CString.value (readCString buffer o)
  /\ newOffset h = CString.newOffset (readCString buffer o) + 20
  /\ newOffset h <= blength buffer.
Proof.
  unfold readHeaderEntry, readU32; cbv zeta.
  set (c := CString.newOffset (readCString buffer o)).
  destruct (readUInt32LE buffer c); cbn [bind]; [|discriminate].
  destruct (readUInt32LE buffer (c + 4)); cbn [bind]; [|discriminate].
  destruct (readUInt32LE buffer (c + 4 + 4)); cbn [bind]; [|discriminate].
  destruct (readUInt32LE buffer (c + 4 + 4 + 4)); cbn [bind]; [|discriminate].
  destruct (readUInt32LE buffer (c + 4 + 4 + 4 + 4)) eqn:E; cbn [bind];
    [|discriminate].
  apply readUInt32LE_inside in E.
  intros [= <-]; cbn [fileName newOffset]; repeat split; lia.
Qed.

Lemma readHeaderEntry_not_OutOfFuel (buffer : Buffer) (o : Z) (u : unit) :
  readHeaderEntry buffer o <> OutOfFuel u.
Proof.
  unfold readHeaderEntry, readU32; cbv zeta.
  repeat (match goal with
          | |- context [readUInt32LE ?b ?x] => destruct (readUInt32LE b x)
          end; cbn [bind]; try discriminate).
Qed.

Lemma readProperty_advances (buffer : Buffer) (o : Z) :
  o < Property.newOffset (readProperty buffer o).
Proof.
  unfold readProperty; cbv zeta.
  pose proof (readCString_advances buffer o).
  destruct (isEmpty _); cbn [Property.newOffset]; [assumption|].
  pose proof (readCString_advances buffer
                (CString.newOffset (readCString buffer o))); lia.
Qed.

Lemma readProperty_past_end (buffer : Buffer) (o : Z) :
  blength buffer <= o -> Property.name (readProperty buffer o) = None.
Proof.
  intros H; unfold readProperty; cbv zeta.
  now rewrite (readCString_past_end buffer o H).
Qed.

(** The property block loop returns once its budget covers the bytes left
    in the buffer: a property with a name takes at least one byte, and at
    the end of the buffer the name read is empty. *)
Lemma propertyLoop_returns (fuel : nat) (buffer : Buffer) :
  forall o, blength buffer - o <= Z.of_nat fuel ->
            exists o', propertyLoop fuel buffer o = Returned o'.
Proof.
  induction fuel as [|f IH]; intros o Hf; cbn [propertyLoop]; cbv zeta.
  - rewrite readProperty_past_end by lia; cbn [noName]; eauto.
  - destruct (noName _); [eauto|].
    apply IH; pose proof (readProperty_advances buffer o); lia.
Qed.

(** The entry table loop, when it returns, has read an entry table. *)
Lemma entryLoop_sound (fuel : nat) (buffer : Buffer) :
  forall o acc entries stop,
    entryLoop fuel buffer o acc = Returned (entries, stop) ->
    exists table, entries = acc ++ table /\ tableAt buffer o table stop.
Proof.
  induction fuel as [|f IH]; intros o acc entries stop; cbn [entryLoop];
    destruct (readHeaderEntry buffer o) as [h| |] eqn:E; try discriminate;
    destruct (isEmpty (fileName h)) eqn:Hn; try discriminate.
  - intros [= <- <-]; exists []; rewrite app_nil_r; split; [reflexivity|].
    apply table_marker; [assumption|]. now destruct (fileName h).
  - intros [= <- <-]; exists []; rewrite app_nil_r; split; [reflexivity|].
    apply table_marker; [assumption|]. now destruct (fileName h).
  - intros H; apply IH in H; destruct H as (table & -> & Ht).
    exists (h :: table); rewrite <- app_assoc; split; [reflexivity|].
    apply table_entry; auto. intros Hnil; rewrite Hnil in Hn; discriminate.
Qed.

(** It reads any entry table that is there, given a budget of one
    iteration per entry. *)
Lemma entryLoop_complete (buffer : Buffer) (o : Z) (table : list HeaderEntry)
  (stop : Z) :
  tableAt buffer o table stop ->
  forall fuel acc,
    (List.length table <= fuel)%nat ->
    entryLoop fuel buffer o acc = Returned (acc ++ table, stop).
Proof.
  induction 1 as [o m Hm Hn | o h rest stop Hh Hn Ht IH]; intros fuel acc Hf.
  - destruct fuel; cbn [entryLoop]; rewrite Hm, Hn, app_nil_r; reflexivity.
  - destruct fuel as [|f]; [cbn in Hf; lia|].
    cbn [entryLoop]; rewrite Hh.
    destruct (fileName h) eqn:E; [contradiction|]; cbn [isEmpty].
    rewrite IH by (cbn in Hf; lia).
    rewrite <- app_assoc; reflexivity.
Qed.

(** It does not run out of a budget that covers the bytes left in the
    buffer: an entry takes at least 21 bytes. *)
Lemma entryLoop_stops (fuel : nat) (buffer : Buffer) :
  forall o acc u,
    blength buffer - o <= Z.of_nat fuel ->
    entryLoop fuel buffer o acc <> OutOfFuel u.
Proof.
  induction fuel as [|f IH]; intros o acc u Hf; cbn [entryLoop];
    destruct (readHeaderEntry buffer o) as [h| |v] eqn:E; try discriminate;
    try (now apply readHeaderEntry_not_OutOfFuel in E);
    apply readHeaderEntry_Returned in E; destruct E as (En & Eo & Eb);
    pose proof (readCString_advances buffer o) as Ha.
  - rewrite En, readCString_past_end by lia; discriminate.
  - destruct (isEmpty (fileName h)); [discriminate|].
    apply IH; lia.
Qed.

Lemma tableAt_names (buffer : Buffer) (o : Z) (table : list HeaderEntry)
  (stop : Z) :
  tableAt buffer o table stop ->
  Forall (fun e => fileName e <> []) table.
Proof. induction 1; constructor; auto. Qed.

Lemma propertyLoop_advances (fuel : nat) (buffer : Buffer) :
  forall o o', propertyLoop fuel buffer o = Returned o' -> o < o'.
Proof.
  induction fuel as [|f IH]; intros o o'; cbn [propertyLoop]; cbv zeta;
    pose proof (readProperty_advances buffer o);
    destruct (noName _); try discriminate.
  - intros [= <-]; assumption.
  - intros [= <-]; assumption.
  - intros H1; apply IH in H1; lia.
Qed.

(** What lines 60-78 leave in [entries]: nothing, or the first header
    entry when it has a name and is not the product entry. *)
Lemma firstHeader_Returned (fuel : nat) (buffer : Buffer)
  (entries : list HeaderEntry) (start : Z) :
  firstHeader fuel buffer = Returned (entries, start) ->
  exists firstEntry,
    readHeaderEntry buffer 0 = Returned firstEntry
    /\ newOffset firstEntry <= start
    /\ (entries = []
        \/ entries = [firstEntry]
           /\ fileName firstEntry <> []
           /\ packingMethod firstEntry <> PACKING_METHOD_PRODUCT
           /\ start = newOffset firstEntry).
Proof.
  unfold firstHeader.
  destruct (readHeaderEntry buffer 0) as [h| |] eqn:E; cbn [bind];
    try discriminate.
  destruct (Z.eqb_spec (packingMethod h) PACKING_METHOD_PRODUCT).
  - destruct (propertyLoop fuel buffer (newOffset h)) eqn:Ep; cbn [bind];
      try discriminate.
    intros [= <- <-]; exists h; apply propertyLoop_advances in Ep.
    repeat split; auto; lia.
  - destruct (fileName h) eqn:En; cbn [isEmpty negb].
    + intros [= <- <-]; exists h; repeat split; auto; lia.
    + intros [= <- <-]; exists h; repeat split; try lia.
      right; rewrite En; repeat split; auto; discriminate.
Qed.

Lemma firstHeader_stops (fuel : nat) (buffer : Buffer) (u : unit) :
  blength buffer <= Z.of_nat fuel ->
  firstHeader fuel buffer <> OutOfFuel u.
Proof.
  intros Hf; unfold firstHeader.
  destruct (readHeaderEntry buffer 0) as [h| |v] eqn:E; cbn [bind];
    try discriminate; [|now apply readHeaderEntry_not_OutOfFuel in E].
  apply readHeaderEntry_Returned in E; destruct E as (_ & Eo & _).
  pose proof (readCString_advances buffer 0).
  destruct (_ =? _).
  - destruct (propertyLoop_returns fuel buffer (newOffset h)) as [o' ->];
      [lia | discriminate].
  - destruct (negb _); discriminate.
Qed.

(** With a budget that covers the buffer, a truncated archive makes the
    table building throw. *)
Lemma buildTable_truncated (fuel : nat) (buffer : Buffer) :
  blength buffer <= Z.of_nat fuel -> truncated buffer ->
  buildTable fuel buffer = Thrown RangeError.
Proof.
  intros Hf Ht; unfold buildTable.
  pose proof (firstHeader_stops fuel buffer) as Hs.
  destruct (firstHeader fuel buffer) as [[acc start]|e|u] eqn:E;
    cbn [bind fst snd].
  - destruct (firstHeader_Returned _ _ _ _ E) as (h & Eh & Hle & _).
    apply readHeaderEntry_Returned in Eh; destruct Eh as (_ & Eo & _).
    pose proof (readCString_advances buffer 0).
    pose proof (entryLoop_stops fuel buffer start acc) as Hl.
    destruct (entryLoop fuel buffer start acc) as [[entries stop]|e|u] eqn:El.
    + apply entryLoop_sound in El; destruct El as (table & _ & Hta).
      exfalso; exact (Ht fuel acc start E table stop Hta).
    + now destruct e.
    + exfalso; apply (Hl u); [lia | reflexivity].
  - now destruct e.
  - exfalso; now apply (Hs u).
Qed.

Lemma scenarioTruncated_truncated : truncated scenarioTruncated.
Proof.
  intros fuel entries start H table stop Ht.
  assert (E : firstHeader fuel scenarioTruncated = Returned ([entryTestC], 27))
    by (vm_compute; reflexivity).
  rewrite E in H; injection H as <- <-.
  assert (Hr : readHeaderEntry scenarioTruncated 27 = Thrown RangeError)
    by (vm_compute; reflexivity).
  inversion Ht; congruence.
Qed.

(** C5, as stated, fails: the empty buffer is exhausted before any header
    entry is read, and [parse] fails on it with a [RangeError]; no run
    ends with an error named MalformedArchive. *)
Lemma parse_truncated_counterexample :
  parse 0 [] (newPBOParser []) = Thrown RangeError
  /\ ~ (exists fuel e,
           parse fuel [] (newPBOParser []) = Thrown e
           /\ errorName e = "MalformedArchive"%string).
Proof.
  split; [reflexivity|].
  intros (fuel & e & _ & Hn); destruct e; discriminate Hn.
Qed.

(** C5, amended.  On a truncated archive, [parse] fails for the whole
    archive with the [RangeError] of the out-of-bounds integer read: given
    a budget that covers the buffer it neither runs out of budget nor
    returns a result. *)
Theorem parse_truncated :
  forall (fuel : nat) (buffer : Buffer) (this : PBOParser),
    blength buffer <= Z.of_nat fuel ->
    truncated buffer ->
    parse fuel buffer this = Thrown RangeError.
Proof.
  intros fuel buffer this Hf Ht; unfold parse.
  rewrite (buildTable_truncated fuel buffer Hf Ht); reflexivity.
Qed.

Lemma parse_truncated_witness :
  parse 27 scenarioTruncated (newPBOParser []) = Thrown RangeError.
Proof.
  apply (parse_truncated 27 scenarioTruncated (newPBOParser [])).
  - vm_compute; discriminate.
  - exact scenarioTruncated_truncated.
Defined.

(** C7.  Given a budget that covers the buffer, the table building
    stops; when an entry table lies at the offset where the loop starts,
    the loop returns it; and the table [parse] builds is what lines 60-78
    put in [entries] (nothing, or the first header entry) followed by
    exactly the header entries the loop read, in the order in which they
    lie in the buffer, one after the other from the offset at which the
    loop starts: each of them has a name, and the loop stopped at the
    first header entry with an empty name, which is not in the table,
    [stop] being the offset after that marker. *)
Theorem buildTable_stops_at_marker :
  forall (fuel : nat) (buffer : Buffer),
    blength buffer <= Z.of_nat fuel ->
    (forall u, buildTable fuel buffer <> OutOfFuel u)
    /\ (forall first start table stop,
           firstHeader fuel buffer = Returned (first, start) ->
           tableAt buffer start table stop ->
           buildTable fuel buffer = Returned (first ++ table, stop))
    /\ (forall entries stop,
           buildTable fuel buffer = Returned (entries, stop) ->
           exists first start table,
             firstHeader fuel buffer = Returned (first, start)
             /\ entries = first ++ table
             /\ tableAt buffer start table stop
             /\ Forall (fun e => fileName e <> []) entries).
Proof.
  intros fuel buffer Hf.
  assert (Hstop : forall first start u,
             firstHeader fuel buffer = Returned (first, start) ->
             entryLoop fuel buffer start first <> OutOfFuel u).
  { intros first start u E.
    destruct (firstHeader_Returned _ _ _ _ E) as (h & Eh & Hle & _).
    apply readHeaderEntry_Returned in Eh; destruct Eh as (_ & Eo & _).
    pose proof (readCString_advances buffer 0).
    apply entryLoop_stops; lia. }
  split; [|split].
  - intros u; unfold buildTable.
    pose proof (firstHeader_stops fuel buffer) as Hs.
    destruct (firstHeader fuel buffer) as [[first start]|e|v] eqn:E;
      cbn [bind fst snd]; [now apply Hstop | discriminate | now apply Hs].
  - intros first start table stop E Ht; unfold buildTable; rewrite E.
    cbn [bind fst snd].
    pose proof (entryLoop_complete buffer start table stop Ht
                  (Nat.max fuel (List.length table)) first
                  (Nat.le_max_r _ _)) as Hc.
    pose proof (entryLoop_settles buffer fuel
                  (Nat.max fuel (List.length table)) start first
                  (Nat.le_max_l _ _)) as Hm.
    pose proof (Hstop first start) as Hn.
    destruct (entryLoop fuel buffer start first) as [r|e|u];
      cbn [settles] in Hm; [congruence | congruence |].
    exfalso; now apply (Hn u).
  - intros entries stop; unfold buildTable.
    destruct (firstHeader fuel buffer) as [[first start]| |] eqn:E;
      cbn [bind fst snd]; try discriminate.
    intros H; apply entryLoop_sound in H; destruct H as (table & -> & Ht).
    exists first, start, table; repeat split; auto.
    apply Forall_app; split; [|eapply tableAt_names; eauto].
    destruct (firstHeader_Returned _ _ _ _ E)
      as (h & _ & _ & [-> | (-> & Hn & _)]); repeat constructor; auto.
Qed.

Lemma buildTable_stops_at_marker_witness :
  exists first start table,
    firstHeader 53 scenarioA = Returned (first, start)
    /\ [entryTestC] = first ++ table
    /\ tableAt scenarioA start table 48
    /\ Forall (fun e => fileName e <> []) [entryTestC].
Proof.
  assert (Hf : blength scenarioA <= Z.of_nat 53) by (vm_compute; discriminate).
  destruct (buildTable_stops_at_marker 53 scenarioA Hf) as (_ & _ & H).
  apply (H [entryTestC] 48); vm_compute; reflexivity.
Defined.

(** ** [parse] *)

(** C8.  Scenario A: [parse] on a fresh instance returns exactly one
    record, with path "test.c", content "hello" and size 5 (and name
    "test.c", the one line "hello"), and writes no warning. *)
Theorem parse_scenarioA :
  forall (fuel : nat) (pboPath : jsstring),
    parse fuel scenarioA (newPBOParser pboPath)
    = Returned
        ({| pboPath := pboPath;
            files := [ {| path := lit "test.c";
                          name := lit "test.c";
                          content := lit "hello";
                          lines := [lit "hello"];
                          size := 5 |} ] |}, []).
Proof.
  intros fuel pboPath; destruct fuel; vm_compute; reflexivity.
Qed.

(** Records already in [this.files] stay in front of what an entry
    adds. *)
Lemma extractEntry_prefix (fuel : nat) (buffer : Buffer) (entry : HeaderEntry)
  (o : Z) (fs gs : list ExtractedFile) (c : list Warning) :
  extractEntry fuel buffer entry
    {| offset := o; thisFiles := fs ++ gs; console := c |}
  = x <- extractEntry fuel buffer entry
           {| offset := o; thisFiles := gs; console := c |} ;;
    Returned {| offset := offset x; thisFiles := fs ++ thisFiles x;
                console := console x |}.
Proof.
  unfold extractEntry; cbn [offset thisFiles console].
  destruct (isScript entry); [|reflexivity].
  destruct (_ =? PACKING_METHOD_UNCOMPRESSED);
    [cbn [bind offset thisFiles console]; now rewrite app_assoc|].
  destruct (_ =? PACKING_METHOD_PACKED); [|reflexivity].
  destruct (callDecompressLZH _ _ _); cbn [bind offset thisFiles console];
    try reflexivity.
  now rewrite app_assoc.
Qed.

Lemma extractLoop_prefix (fuel : nat) (buffer : Buffer)
  (entries : list HeaderEntry) :
  forall o fs gs c,
    extractLoop fuel buffer entries
      {| offset := o; thisFiles := fs ++ gs; console := c |}
    = x <- extractLoop fuel buffer entries
             {| offset := o; thisFiles := gs; console := c |} ;;
      Returned {| offset := offset x; thisFiles := fs ++ thisFiles x;
                  console := console x |}.
Proof.
  induction entries as [|entry rest IH]; intros o fs gs c;
    cbn [extractLoop]; [reflexivity|].
  rewrite extractEntry_prefix.
  destruct (extractEntry fuel buffer entry _) as [[o' gs' c']| |];
    cbn [bind offset thisFiles console]; try reflexivity.
  apply IH.
Qed.

(** C9, as stated, fails: two successive calls on one instance over
    scenario A do not return equal lists. *)
Lemma parse_twice_counterexample :
  ~ (forall fuel p1 w1 p2 w2,
        parse fuel scenarioA (newPBOParser []) = Returned (p1, w1) ->
        parse fuel scenarioA p1 = Returned (p2, w2) ->
        files p2 = files p1).
Proof.
  intros H.
  specialize (H 0%nat _ _ _ _ eq_refl eq_refl); discriminate H.
Qed.

(** C9, amended.  The result of [parse] depends on the bytes of the buffer
    and on the records the instance already holds: a call returns those
    records followed by the records a fresh instance returns for the same
    buffer (so a second call over the same archive returns the records
    of the first call twice), and it throws or fails to return exactly
    when the fresh instance does. *)
Theorem parse_accumulates :
  forall (fuel : nat) (buffer : Buffer) (this : PBOParser),
    parse fuel buffer this
    = r <- parse fuel buffer (newPBOParser (pboPath this)) ;;
      Returned ({| pboPath := pboPath this;
                   files := files this ++ files (fst r) |}, snd r).
Proof.
  intros fuel buffer this; unfold parse.
  destruct (buildTable fuel buffer) as [[entries o]| |]; cbn [bind];
    try reflexivity.
  cbn [newPBOParser files pboPath].
  rewrite <- (app_nil_r (files this)) at 1.
  rewrite extractLoop_prefix.
  destruct (extractLoop fuel buffer entries _) as [[o' gs c]| |];
    cbn [bind fst snd files thisFiles console]; reflexivity.
Qed.

(** ** The bytes the decompressor does not produce *)

Lemma nth_error_setNth (l : list byte) :
  forall n k v,
    nth_error (setNth n v l) k
    = if (k =? n)%nat && (n <? List.length l)%nat then Some v
      else nth_error l k.
Proof.
  induction l as [|x l IH]; intros [|n] [|k] v; cbn [setNth nth_error];
    try reflexivity.
  - rewrite andb_false_r; reflexivity.
  - rewrite IH; reflexivity.
Qed.

(** Reading a buffer after a store: the stored byte at the index of the
    store when that index is inside the buffer, the old contents
    elsewhere. *)
Lemma bget_bset (buf : Buffer) (j i : Z) (v : byte) :
  bget (bset buf j v) i
  = if (i =? j) && inRange buf j then Some v else bget buf i.
Proof.
  unfold bset.
  destruct (inRange buf j) eqn:Hj; [|now rewrite andb_false_r].
  rewrite andb_true_r.
  apply inRange_true in Hj.
  unfold bget.
  assert (Hr : inRange (setNth (Z.to_nat j) v buf) i = inRange buf i)
    by (unfold inRange, blength; now rewrite length_setNth).
  rewrite Hr.
  destruct (Z.eqb_spec i j) as [-> | Hne].
  - replace (inRange buf j) with true by (symmetry; now apply inRange_true).
    rewrite nth_error_setNth, Nat.eqb_refl.
    replace (Z.to_nat j <? List.length buf)%nat with true
      by (symmetry; apply Nat.ltb_lt; unfold blength in Hj; lia).
    reflexivity.
  - destruct (inRange buf i) eqn:Hi; [|reflexivity].
    apply inRange_true in Hi.
    rewrite nth_error_setNth.
    replace (Z.to_nat i =? Z.to_nat j)%nat with false
      by (symmetry; apply Nat.eqb_neq; lia).
    reflexivity.
Qed.

Lemma inRange_bset (buf : Buffer) (j i : Z) (v : byte) :
  inRange (bset buf j v) i = inRange buf i.
Proof. unfold inRange, blength; now rewrite length_bset. Qed.















(** * Further properties of the parser *)

(** ** Little-endian integers and header entries *)

Lemma u8_range (b : byte) : 0 <= u8 b < 256.
Proof.
  unfold u8; pose proof (Byte.to_N_bounded b) as H; lia.
Qed.

Lemma u8_byteOfZ (z : Z) : u8 (byteOfZ z) = z mod 256.
Proof.
  unfold byteOfZ, u8.
  pose proof (Z.mod_pos_bound z 256 eq_refl) as Hm.
  destruct (Byte.of_N (Z.to_N (z mod 256))) as [b|] eqn:E.
  - apply Byte.to_of_N in E; rewrite E; lia.
  - apply Byte.of_N_None_iff in E; lia.
Qed.

Lemma bget_app_at (pre : Buffer) (l : Buffer) (k : nat) (b : byte) :
  nth_error l k = Some b ->
  bget (pre ++ l) (blength pre + Z.of_nat k) = Some b.
Proof.
  intros H.
  assert (Hk : (k < List.length l)%nat) by (apply nth_error_Some; congruence).
  unfold bget.
  replace (inRange (pre ++ l) (blength pre + Z.of_nat k)) with true
    by (symmetry; apply inRange_true; blen).
  unfold blength.
  replace (Z.to_nat (Z.of_nat (List.length pre) + Z.of_nat k))
    with (List.length pre + k)%nat by lia.
  rewrite nth_error_app2 by lia.
  now replace (List.length pre + k - List.length pre)%nat with k by lia.
Qed.

(** Reading back a 32-bit integer written in little-endian order. *)
Lemma readUInt32LE_u32le (pre post : Buffer) (z : Z) :
  isU32 z ->
  readUInt32LE (pre ++ u32le z ++ post) (blength pre) = Some z.
Proof.
  intros Hz; unfold readUInt32LE.
  pose proof (blength_nonneg pre) as Hp.
  replace ((0 <=? blength pre)
           && (blength pre + 4 <=? blength (pre ++ u32le z ++ post)))
    with true
    by (symmetry; apply andb_true_iff; split; apply Z.leb_le;
        [lia | unfold u32le; blen]).
  unfold u32le; cbn [app].
  replace (blength pre) with (blength pre + Z.of_nat 0) at 1 by lia.
  change (blength pre + 1) with (blength pre + Z.of_nat 1).
  change (blength pre + 2) with (blength pre + Z.of_nat 2).
  change (blength pre + 3) with (blength pre + Z.of_nat 3).
  set (l := byteOfZ z :: byteOfZ (z / 256) :: byteOfZ (z / 65536)
             :: byteOfZ (z / 16777216) :: post).
  rewrite (bget_app_at pre l 0 (byteOfZ z) eq_refl),
    (bget_app_at pre l 1 (byteOfZ (z / 256)) eq_refl),
    (bget_app_at pre l 2 (byteOfZ (z / 65536)) eq_refl),
    (bget_app_at pre l 3 (byteOfZ (z / 16777216)) eq_refl).
  cbn [toInt]; rewrite !u8_byteOfZ; f_equal.
  unfold isU32 in Hz.
  pose proof (Z.div_mod z 256 ltac:(lia)).
  pose proof (Z.div_mod (z / 256) 256 ltac:(lia)).
  pose proof (Z.div_mod (z / 65536) 256 ltac:(lia)).
  replace (z / 65536) with (z / 256 / 256) in *
    by (rewrite Z.div_div; [reflexivity | lia | lia]).
  replace (z / 16777216) with (z / 256 / 256 / 256)
    by (rewrite !Z.div_div; [reflexivity | lia | lia | lia | lia]).
  assert (z / 256 / 256 / 256 < 256).
  { repeat (apply Z.div_lt_upper_bound; [lia|]); lia. }
  assert (0 <= z / 256 / 256 / 256) by (repeat apply Z.div_pos; lia).
  rewrite (Z.mod_small (z / 256 / 256 / 256)) by lia.
  lia.
Qed.

Lemma readUInt32LE_range (buffer : Buffer) (o v : Z) :
  readUInt32LE buffer o = Some v -> isU32 v.
Proof.
  unfold readUInt32LE; destruct (_ && _); [|discriminate].
  intros E.
  apply (f_equal (fun x => match x with Some y => y | None => 0 end)) in E.
  cbv beta iota in E; subst v; unfold isU32.
  assert (R : forall i, 0 <= toInt (bget buffer i) < 256).
  { intros i; destruct (bget buffer i); cbn [toInt];
      [apply u8_range | lia]. }
  pose proof (R o); pose proof (R (o + 1)); pose proof (R (o + 2));
    pose proof (R (o + 3)); lia.
Qed.

(** ** Zero-terminated strings *)

Lemma scanCString_noZero (s : Buffer) :
  noZero s ->
  forall rest e,
    scanCString (s ++ rest) e = scanCString rest (e + blength s).
Proof.
  induction 1 as [|c s Hc Hs IH]; intros rest e.
  - change (blength []) with 0; rewrite Z.add_0_r; reflexivity.
  - cbn [app scanCString].
    replace (notZero (Some c)) with true.
    + rewrite IH.
      replace (e + 1 + blength s) with (e + blength (c :: s)) by blen.
      reflexivity.
    + symmetry; unfold notZero; apply negb_true_iff, Z.eqb_neq.
      intros H0; apply Hc; now apply u8_zero.
Qed.

Lemma skipn_pre (pre rest : Buffer) :
  skipn (Z.to_nat (blength pre)) (pre ++ rest) = rest.
Proof.
  unfold blength; rewrite Nat2Z.id, skipn_app, skipn_all, Nat.sub_diag.
  reflexivity.
Qed.

Lemma slice_middle (pre s post : Buffer) :
  slice (pre ++ s ++ post) (blength pre) (blength pre + blength s) = s.
Proof.
  unfold slice; rewrite skipn_pre.
  pose proof (blength_nonneg pre).
  replace (Z.to_nat (blength pre + blength s - Z.max 0 (blength pre)))
    with (List.length s) by (unfold blength in *; lia).
  rewrite firstn_app, firstn_all, Nat.sub_diag; cbn [firstn].
  apply app_nil_r.
Qed.

(** A zero-terminated string is read back, and the cursor lands after the
    terminator. *)
Lemma readCString_terminated (pre s post : Buffer) :
  noZero s ->
  readCString (pre ++ s ++ x00 :: post) (blength pre)
  = CString.mk (toStringUtf8 s) (blength pre + blength s + 1).
Proof.
  intros Hs; unfold readCString.
  pose proof (blength_nonneg pre).
  rewrite skipn_pre, (scanCString_noZero s Hs).
  change (scanCString (x00 :: post) (Z.max 0 (blength pre) + blength s))
    with (Z.max 0 (blength pre) + blength s).
  rewrite Z.max_r by lia.
  now rewrite slice_middle.
Qed.

Lemma readU32_at (buffer pre post : Buffer) (z o : Z) :
  buffer = pre ++ u32le z ++ post -> o = blength pre -> isU32 z ->
  readU32 buffer o = Returned z.
Proof.
  intros -> -> Hz; unfold readU32; now rewrite readUInt32LE_u32le.
Qed.

(** A header entry laid out in a buffer is read back. *)
Lemma readHeaderEntry_encoded :
  forall (pre name post : Buffer) (pm os r ts ds : Z),
    noZero name ->
    isU32 pm -> isU32 os -> isU32 r -> isU32 ts -> isU32 ds ->
    readHeaderEntry (pre ++ encodeHeader name pm os r ts ds ++ post)
      (blength pre)
    = Returned {| fileName := toStringUtf8 name;
                  packingMethod := pm;
                  originalSize := os;
                  reserved := r;
                  timeStamp := ts;
                  dataSize := ds;
                  newOffset := blength pre + blength name + 21 |}.
Proof.
  intros pre name post pm os r ts ds Hn Hpm Hos Hr Hts Hds.
  unfold readHeaderEntry, encodeHeader; cbv zeta.
  set (buffer := pre ++ (name ++ [x00] ++ u32le pm ++ u32le os ++ u32le r
                         ++ u32le ts ++ u32le ds) ++ post).
  assert (Hc : readCString buffer (blength pre)
               = CString.mk (toStringUtf8 name)
                   (blength pre + blength name + 1)).
  { unfold buffer; rewrite <- !app_assoc.
    now apply readCString_terminated. }
  rewrite Hc; cbn [CString.value CString.newOffset].
  rewrite (readU32_at buffer (pre ++ name ++ [x00])
             (u32le os ++ u32le r ++ u32le ts ++ u32le ds ++ post) pm);
    [| unfold buffer; now rewrite <- !app_assoc | blen | assumption].
  cbn [bind].
  rewrite (readU32_at buffer (pre ++ name ++ [x00] ++ u32le pm)
             (u32le r ++ u32le ts ++ u32le ds ++ post) os);
    [| unfold buffer; now rewrite <- !app_assoc
     | unfold u32le; blen | assumption].
  cbn [bind].
  rewrite (readU32_at buffer (pre ++ name ++ [x00] ++ u32le pm ++ u32le os)
             (u32le ts ++ u32le ds ++ post) r);
    [| unfold buffer; now rewrite <- !app_assoc
     | unfold u32le; blen | assumption].
  cbn [bind].
  rewrite (readU32_at buffer
             (pre ++ name ++ [x00] ++ u32le pm ++ u32le os ++ u32le r)
             (u32le ds ++ post) ts);
    [| unfold buffer; now rewrite <- !app_assoc
     | unfold u32le; blen | assumption].
  cbn [bind].
  rewrite (readU32_at buffer
             (pre ++ name ++ [x00] ++ u32le pm ++ u32le os ++ u32le r
              ++ u32le ts)
             post ds);
    [| unfold buffer; now rewrite <- !app_assoc
     | unfold u32le; blen | assumption].
  cbn [bind]; do 2 f_equal; lia.
Qed.

(** X1.  Reading a header entry back.  Wherever a header entry is laid
    out in a buffer (a name without zero byte, its terminator, five
    unsigned 32-bit integers in little-endian order), [readHeaderEntry] at
    its first byte returns the name, decoded, and the five integers, and
    the offset of the byte after the entry. *)
Theorem readHeaderEntry_encodeHeader :
  forall (pre name post : Buffer) (pm os r ts ds : Z),
    noZero name ->
    isU32 pm -> isU32 os -> isU32 r -> isU32 ts -> isU32 ds ->
    readHeaderEntry (pre ++ encodeHeader name pm os r ts ds ++ post)
      (blength pre)
    = Returned {| fileName := toStringUtf8 name;
                  packingMethod := pm;
                  originalSize := os;
                  reserved := r;
                  timeStamp := ts;
                  dataSize := ds;
                  newOffset := blength pre + blength name + 21 |}.
Proof. exact readHeaderEntry_encoded. Qed.

Lemma readHeaderEntry_encodeHeader_witness :
  readHeaderEntry
    ([x2a] ++ encodeHeader (bytesOf "a.c") 0 5 0 7 3 ++ bytesOf "xyz") 1
  = Returned {| fileName := lit "a.c"; packingMethod := 0;
                originalSize := 5; reserved := 0; timeStamp := 7;
                dataSize := 3; newOffset := 25 |}.
Proof.
  apply (readHeaderEntry_encodeHeader [x2a] (bytesOf "a.c") (bytesOf "xyz")
           0 5 0 7 3);
    try (unfold isU32; lia).
  repeat constructor; discriminate.
Defined.

Lemma readUInt32LE_Some (buffer : Buffer) (o : Z) :
  0 <= o -> o + 4 <= blength buffer ->
  exists v, readUInt32LE buffer o = Some v /\ isU32 v.
Proof.
  intros H0 H4.
  destruct (readUInt32LE buffer o) as [v|] eqn:E.
  - exists v; split; [reflexivity | now apply readUInt32LE_range in E].
  - unfold readUInt32LE in E.
    replace ((0 <=? o) && (o + 4 <=? blength buffer)) with true in E
      by (symmetry; apply andb_true_iff; lia).
    discriminate.
Qed.

(** X2.  [readHeaderEntry] returns exactly when the 20 bytes of the five
    integers lie inside the buffer after the name's terminator (or after
    the place where the terminator is missing); its new offset is then 20
    past that of the name, and the five fields are unsigned 32-bit
    integers.  Otherwise it throws a [RangeError]. *)
Theorem readHeaderEntry_outcome :
  forall (buffer : Buffer) (offset : Z),
    let name := readCString buffer offset in
    (CString.newOffset name + 20 <= blength buffer ->
     exists h,
       readHeaderEntry buffer offset = Returned h
       /\ fileName h = CString.value name
       /\ newOffset h = CString.newOffset name + 20
       /\ isU32 (packingMethod h) /\ isU32 (originalSize h)
       /\ isU32 (reserved h) /\ isU32 (timeStamp h) /\ isU32 (dataSize h))
    /\ (blength buffer < CString.newOffset name + 20 ->
        readHeaderEntry buffer offset = Thrown RangeError).
Proof.
  intros buffer o; cbv zeta.
  destruct (readCString_facts buffer o) as (_ & Hr & _); cbn zeta in Hr.
  set (e := CString.newOffset (readCString buffer o)) in *.
  assert (He : 1 <= e) by lia.
  split.
  - intros Hfit; unfold readHeaderEntry, readU32; cbv zeta; fold e.
    destruct (readUInt32LE_Some buffer e) as (v1 & -> & R1); try lia.
    destruct (readUInt32LE_Some buffer (e + 4)) as (v2 & -> & R2); try lia.
    destruct (readUInt32LE_Some buffer (e + 4 + 4)) as (v3 & -> & R3);
      try lia.
    destruct (readUInt32LE_Some buffer (e + 4 + 4 + 4)) as (v4 & -> & R4);
      try lia.
    destruct (readUInt32LE_Some buffer (e + 4 + 4 + 4 + 4))
      as (v5 & -> & R5); try lia.
    cbn [bind]; eexists; split; [reflexivity|].
    cbn [fileName newOffset packingMethod originalSize reserved timeStamp
           dataSize].
    unfold isU32 in *; repeat split; auto; lia.
  - intros Hshort.
    destruct (readHeaderEntry buffer o) as [h|[]|u] eqn:E; [|reflexivity|].
    + apply readHeaderEntry_Returned in E; fold e in E; lia.
    + now apply readHeaderEntry_not_OutOfFuel in E.
Qed.

(** ** The property block *)

Lemma readCString_end_bound (buffer : Buffer) (o : Z) :
  CString.newOffset (readCString buffer o) <= Z.max o (blength buffer) + 1.
Proof.
  destruct (readCString_facts buffer o) as (_ & H & _); cbn zeta in H; lia.
Qed.

Lemma readProperty_end_bound (buffer : Buffer) (o : Z) :
  Property.name (readProperty buffer o) = None
  /\ Property.newOffset (readProperty buffer o)
     <= Z.max o (blength buffer) + 1
  \/ Property.name (readProperty buffer o) <> None
     /\ Property.newOffset (readProperty buffer o) <= blength buffer + 2.
Proof.
  unfold readProperty; cbv zeta.
  pose proof (readCString_end_bound buffer o) as H1.
  destruct (isEmpty (CString.value (readCString buffer o))) eqn:E;
    cbn [Property.newOffset Property.name]; [now left | right].
  split; [discriminate|].
  destruct (Z.le_gt_cases (blength buffer) o) as [Hge | Hlt].
  - rewrite (readCString_past_end buffer o Hge) in E; discriminate.
  - pose proof (readCString_end_bound buffer
                  (CString.newOffset (readCString buffer o))); lia.
Qed.

Lemma propertyLoop_end_bound (fuel : nat) (buffer : Buffer) :
  forall o o',
    propertyLoop fuel buffer o = Returned o' ->
    o' <= Z.max o (blength buffer + 2) + 1.
Proof.
  induction fuel as [|f IH]; intros o o'; cbn [propertyLoop]; cbv zeta;
    destruct (readProperty_end_bound buffer o) as [[Hn Hb] | [Hn Hb]].
  - rewrite Hn; cbn [noName]; intros [= <-]; lia.
  - destruct (noName _); [intros [= <-]; lia | discriminate].
  - rewrite Hn; cbn [noName]; intros [= <-]; lia.
  - destruct (noName _); [intros [= <-]; lia|].
    intros H; apply IH in H; lia.
Qed.

(** X3.  The property block loop cannot hang and throws nothing: given a
    budget of one iteration per byte left in the buffer it returns, also
    when the block has no terminator; the offset it returns lies after
    the offset it started from and at most three bytes past the end of
    the buffer (or one byte past a start offset that was further out). *)
Theorem propertyLoop_always_returns :
  forall (fuel : nat) (buffer : Buffer) (offset : Z),
    blength buffer - offset <= Z.of_nat fuel ->
    exists offset',
      propertyLoop fuel buffer offset = Returned offset'
      /\ offset < offset' <= Z.max offset (blength buffer + 2) + 1.
Proof.
  intros fuel buffer o Hf.
  destruct (propertyLoop_returns fuel buffer o Hf) as [o' E].
  exists o'; split; [exact E|]; split.
  - eapply propertyLoop_advances; eauto.
  - eapply propertyLoop_end_bound; eauto.
Qed.

Lemma propertyLoop_always_returns_witness :
  exists offset',
    propertyLoop 4 (bytesOf "ab") 1 = Returned offset'
    /\ 1 < offset' <= Z.max 1 (blength (bytesOf "ab") + 2) + 1.
Proof.
  apply (propertyLoop_always_returns 4 (bytesOf "ab") 1).
  vm_compute; discriminate.
Defined.

Lemma utf8Decode_pending_nonempty (bytes : Buffer) :
  forall p, utf8Decode (Some p) bytes <> [].
Proof.
  induction bytes as [|b tl IH]; intros [[[cp n] lo] hi]; cbn [utf8Decode];
    [discriminate|].
  destruct (_ && _).
  - destruct n as [|[|n]]; try apply IH;
      unfold codeUnits; destruct (_ <? _); discriminate.
  - destruct (utf8Lead (u8 b)); discriminate.
Qed.

(** Decoding yields the empty string for the empty byte string only. *)
Lemma toStringUtf8_nonempty (bytes : Buffer) :
  bytes <> [] -> toStringUtf8 bytes <> [].
Proof.
  destruct bytes as [|b tl]; [congruence | intros _].
  unfold toStringUtf8; cbn [utf8Decode].
  unfold utf8Lead.
  repeat (destruct (_ : bool); try discriminate;
          try apply utf8Decode_pending_nonempty).
Qed.

Lemma readProperty_pair (pre name value post : Buffer) :
  name <> [] -> noZero name -> noZero value ->
  readProperty (pre ++ encodeProperty (name, value) ++ post) (blength pre)
  = Property.mk (Some (toStringUtf8 name)) (Some (toStringUtf8 value))
      (blength pre + blength (encodeProperty (name, value))).
Proof.
  intros Hne Hn Hv; unfold readProperty, encodeProperty; cbv zeta.
  cbn [fst snd].
  set (buffer := pre ++ (name ++ [x00] ++ value ++ [x00]) ++ post).
  assert (H1 : readCString buffer (blength pre)
               = CString.mk (toStringUtf8 name)
                   (blength pre + blength name + 1)).
  { unfold buffer; rewrite <- !app_assoc; now apply readCString_terminated. }
  rewrite H1; cbn [CString.value CString.newOffset].
  destruct (toStringUtf8 name) eqn:E;
    [now apply toStringUtf8_nonempty in E|]; cbn [isEmpty].
  assert (H2 : readCString buffer (blength pre + blength name + 1)
               = CString.mk (toStringUtf8 value)
                   (blength (pre ++ name ++ [x00]) + blength value + 1)).
  { replace (blength pre + blength name + 1)
      with (blength (pre ++ name ++ [x00])) by blen.
    replace buffer with ((pre ++ name ++ [x00]) ++ value ++ x00 :: post)
      by (unfold buffer; now rewrite <- !app_assoc).
    now apply readCString_terminated. }
  rewrite H2; cbn [CString.value CString.newOffset].
  f_equal; blen.
Qed.

(** The loop steps over a property block laid out in a buffer. *)
Lemma propertyLoop_encoded :
  forall (pairs : list (Buffer * Buffer)) (pre post : Buffer) (fuel : nat),
    Forall (fun p => fst p <> [] /\ noZero (fst p) /\ noZero (snd p)) pairs ->
    (List.length pairs <= fuel)%nat ->
    propertyLoop fuel (pre ++ encodeProperties pairs ++ post) (blength pre)
    = Returned (blength pre + blength (encodeProperties pairs)).
Proof.
  induction pairs as [|[name value] pairs IH]; intros pre post fuel Hp Hf.
  - unfold encodeProperties; cbn [flat_map app].
    assert (E : readProperty (pre ++ x00 :: post) (blength pre)
                = Property.mk None None (blength pre + 1)).
    { unfold readProperty; cbv zeta.
      pose proof (readCString_terminated pre [] post (Forall_nil _)) as H.
      cbn [app] in H; rewrite H; cbn [CString.value CString.newOffset].
      change (toStringUtf8 []) with (@nil Z); cbn [isEmpty].
      f_equal; blen. }
    destruct fuel; cbn [propertyLoop]; cbv zeta; rewrite E; reflexivity.
  - destruct fuel as [|f]; [cbn in Hf; lia|].
    inversion Hp as [|? ? (Hne & Hn & Hv) Hrest]; subst; cbn [fst snd] in *.
    unfold encodeProperties; cbn [flat_map].
    fold (encodeProperties pairs).
    rewrite <- !app_assoc.
    replace (flat_map encodeProperty pairs ++ [x00] ++ post)
      with (encodeProperties pairs ++ post)
      by (unfold encodeProperties; now rewrite <- app_assoc).
    cbn [propertyLoop]; cbv zeta.
    rewrite (readProperty_pair pre name value (encodeProperties pairs ++ post))
      by assumption.
    cbn [Property.name Property.newOffset noName].
    destruct (toStringUtf8 name) eqn:E;
      [now apply toStringUtf8_nonempty in E|]; cbn [isEmpty].
    replace (blength pre + blength (encodeProperty (name, value)))
      with (blength (pre ++ encodeProperty (name, value))) by blen.
    rewrite app_assoc, IH by (auto; cbn in Hf; lia).
    f_equal; unfold encodeProperties; blen.
Qed.

(** X4.  Stepping over a property block.  Wherever a property block is
    laid out in a buffer (pairs of a non-empty name and a value, both
    zero-terminated and free of zero bytes, then one zero byte), the
    property block loop started at its first byte returns the offset of
    the byte after the block, given one iteration per pair. *)
Theorem propertyLoop_encodeProperties :
  forall (pairs : list (Buffer * Buffer)) (pre post : Buffer) (fuel : nat),
    Forall (fun p => fst p <> [] /\ noZero (fst p) /\ noZero (snd p)) pairs ->
    (List.length pairs <= fuel)%nat ->
    propertyLoop fuel (pre ++ encodeProperties pairs ++ post) (blength pre)
    = Returned (blength pre + blength (encodeProperties pairs)).
Proof. exact propertyLoop_encoded. Qed.

Lemma propertyLoop_encodeProperties_witness :
  propertyLoop 1
    (bytesOf "hdr"
     ++ encodeProperties [(bytesOf "prefix", bytesOf "mymod")]
     ++ bytesOf "rest") 3
  = Returned 17.
Proof.
  apply (propertyLoop_encodeProperties
           [(bytesOf "prefix", bytesOf "mymod")] (bytesOf "hdr")
           (bytesOf "rest") 1).
  - repeat constructor; cbn; try discriminate.
  - cbn; lia.
Defined.

(** ** The decompressor on short input, and its two back-reference
    branches that return *)

Lemma roundLoop_short (fuel : nat) (data : Buffer) (size : Z) :
  blength data <= 3 ->
  forall r s,
    0 <= inputPos s -> blength data - inputPos s <= Z.of_nat r ->
    exists s',
      roundLoop fuel data size r s = Returned s' /\ output s' = output s.
Proof.
  intros Hd; induction r as [|r IH]; intros s H0 Hr; rewrite roundLoop_eq;
    destruct ((outputPos s <? size) && (inputPos s <? blength data)) eqn:E;
    try (eexists; split; reflexivity);
    apply andb_true_iff in E; destruct E as [_ E]; apply Z.ltb_lt in E;
    [lia|].
  rewrite bitLoop_guard_false
    by (cbn [outputPos inputPos]; apply andb_false_iff; right;
        apply Z.ltb_ge; lia).
  cbn [bind].
  match goal with
  | |- context [roundLoop _ _ _ r ?x] =>
      destruct (IH x) as (s' & Es & Eo); cbn [inputPos]; try lia
  end.
  exists s'; split; [exact Es | exact Eo].
Qed.

(** X5.  Compressed data of fewer than four bytes produces nothing:
    whatever its bytes, for an [originalSize] from 0 to
    [MAX_STRING_LENGTH], [decompressLZH] returns the [originalSize] zero
    bytes the output was allocated with (decoded), since no sub-operation
    runs unless at least three bytes follow the control byte. *)
Theorem decompressLZH_short_input :
  forall (fuel : nat) (compressedData : Buffer) (originalSize : Z),
    blength compressedData <= 3 ->
    0 <= originalSize <= MAX_STRING_LENGTH ->
    (List.length compressedData <= fuel)%nat ->
    decompressLZH fuel compressedData originalSize
    = Returned (toStringUtf8 (alloc originalSize)).
Proof.
  intros fuel data size Hd _ Hf.
  unfold decompressLZH, decompressLZH_run.
  destruct (roundLoop_short fuel data size Hd fuel (lzhInit size))
    as (s' & -> & Eo); cbn [inputPos lzhInit]; [lia | blen |].
  cbn [bind]; now rewrite Eo.
Qed.

Lemma decompressLZH_short_input_witness :
  decompressLZH 3 [xff; x41; x42] 2 = Returned [0; 0].
Proof.
  apply (decompressLZH_short_input 3 [xff; x41; x42] 2).
  - vm_compute; discriminate.
  - vm_compute; split; discriminate.
  - cbn; lia.
Defined.

(** The window of output indices a back-reference writes to. *)
Lemma fillSpaces_spec (n : nat) :
  forall s,
    let s' := fillSpaces n s in
    outputPos s' = outputPos s + Z.of_nat n
    /\ inputPos s' = inputPos s
    /\ forall i,
         bget (output s') i
         = if (outputPos s <=? i) && (i <? outputPos s + Z.of_nat n)
           then (if inRange (output s) i then Some x20 else None)
           else bget (output s) i.
Proof.
  induction n as [|n IH]; intros s; cbn zeta.
  - cbn [fillSpaces]; repeat split; try lia.
    intros i; zcases.
  - cbn [fillSpaces].
    destruct (IH (storeByte x20 s)) as (Ho & Hi & Hb); cbn zeta in *.
    cbn [storeByte outputPos inputPos output] in *.
    repeat split; try lia.
    intros i; rewrite Hb, bget_bset, inRange_bset.
    destruct (inRange (output s) i) eqn:Ei.
    + zcases; subst; now rewrite Ei.
    + assert (Eg : bget (output s) i = None) by (unfold bget; now rewrite Ei).
      rewrite Eg.
      destruct (Z.eqb_spec i (outputPos s)) as [-> | Hne];
        [rewrite Ei|]; zcases.
Qed.

Lemma copyLength_min (pointer : Z) : 3 <= copyLength pointer.
Proof.
  unfold copyLength.
  assert (0 <= Z.shiftr (Z.land pointer 3840) 8).
  { apply Z.shiftr_nonneg, Z.land_nonneg; right; lia. }
  lia.
Qed.

(** X6.  A back-reference whose whole source range lies before the start
    of the output ([rpos + rlen < 0]) returns, whatever the budget: it
    takes two input bytes, advances [outputPos] by the copy length and
    writes the space [0x20] at each index of that window that lies inside
    the output buffer; the rest of the buffer is as before. *)
Theorem backReference_before_start :
  forall (fuel : nat) (data : Buffer) (s : lzh) (pointer : Z),
    readUInt16LE data (inputPos s) = Some pointer ->
    outputPos s - distance pointer + copyLength pointer < 0 ->
    exists s',
      backReference fuel data s = Returned s'
      /\ outputPos s' = outputPos s + copyLength pointer
      /\ inputPos s' = inputPos s + 2
      /\ forall i,
           bget (output s') i
           = if (outputPos s <=? i)
                && (i <? outputPos s + copyLength pointer)
             then (if inRange (output s) i then Some x20 else None)
             else bget (output s) i.
Proof.
  intros fuel data s pointer Hp Hlt.
  pose proof (copyLength_min pointer) as Hmin.
  unfold backReference; rewrite Hp; cbv zeta.
  unfold distance, copyLength in *.
  match goal with
  | |- context [if ?c then _ else _] =>
      replace c with true by (symmetry; apply Z.ltb_lt; lia)
  end.
  match goal with
  | |- context [fillSpaces ?n ?x] =>
      destruct (fillSpaces_spec n x) as (Ho & Hi & Hb)
  end.
  cbn zeta in *; cbn [outputPos inputPos output] in *.
  eexists; split; [reflexivity|].
  rewrite Z2Nat.id in * by lia.
  repeat split; assumption.
Qed.

Lemma backReference_before_start_witness :
  exists s',
    backReference 0 [xff; x00]
      {| output := [x00; x00]; outputPos := 0; inputPos := 0; reads := [] |}
    = Returned s'
    /\ outputPos s' = 0 + copyLength 255
    /\ inputPos s' = 0 + 2
    /\ forall i,
         bget (output s') i
         = if (0 <=? i) && (i <? 0 + copyLength 255)
           then (if inRange [x00; x00] i then Some x20 else None)
           else bget [x00; x00] i.
Proof.
  apply (backReference_before_start 0 [xff; x00]
           {| output := [x00; x00]; outputPos := 0; inputPos := 0;
              reads := [] |} 255).
  - reflexivity.
  - vm_compute; reflexivity.
Defined.

Lemma copyLoop_spec (n : nat) :
  forall cp s,
    0 <= cp < outputPos s ->
    let s' := copyLoop n cp s in
    outputPos s' = outputPos s + Z.of_nat n
    /\ inputPos s' = inputPos s
    /\ (forall i, inRange (output s') i = inRange (output s) i)
    /\ (forall i,
           ~ (outputPos s <= i < outputPos s + Z.of_nat n) ->
           bget (output s') i = bget (output s) i)
    /\ (forall i,
           outputPos s <= i < outputPos s + Z.of_nat n ->
           inRange (output s) i = true ->
           bget (output s') i = bget (output s') (i - (outputPos s - cp))).
Proof.
  induction n as [|n IH]; intros cp s Hcp; cbn zeta.
  - cbn [copyLoop]; repeat split; try lia; auto; intros; lia.
  - cbn [copyLoop].
    set (v := toUint8 (bget (output s) cp)).
    destruct (IH (cp + 1) (storeByte v s)) as (Ho & Hi & Hr & Hu & Hp);
      [cbn [storeByte outputPos]; lia|].
    cbn zeta in *; cbn [storeByte outputPos inputPos output] in *.
    split; [lia|]. split; [assumption|].
    split; [intros i; now rewrite Hr, inRange_bset|].
    split.
    + intros i Hi'; rewrite Hu by lia.
      rewrite bget_bset.
      destruct (Z.eqb_spec i (outputPos s)); [lia | reflexivity].
    + intros i Hw Hin.
      destruct (Z.eq_dec i (outputPos s)) as [-> | Hne].
      * replace (outputPos s - (outputPos s - cp)) with cp by lia.
        rewrite !Hu by lia.
        rewrite !bget_bset, Hin, Z.eqb_refl; cbn [andb].
        destruct (Z.eqb_spec cp (outputPos s)); [lia|]; cbn [andb].
        assert (Hc : inRange (output s) cp = true).
        { apply inRange_true; apply inRange_true in Hin; lia. }
        unfold v, bget; rewrite Hc.
        destruct (nth_error (output s) (Z.to_nat cp)) eqn:E; [reflexivity|].
        apply nth_error_None in E; apply inRange_true in Hc.
        unfold blength in Hc; lia.
      * replace (i - (outputPos s - cp))
          with (i - (outputPos s + 1 - (cp + 1))) by lia.
        apply Hp; [lia | now rewrite inRange_bset].
Qed.

(** X7.  A back-reference into the output produced so far
    ([1 <= distance <= outputPos]) returns, whatever the budget: it takes
    two input bytes, advances [outputPos] by the copy length, and each
    byte it writes inside the buffer is the byte [distance] positions
    before it in the output as it ends up, so that a copy longer than
    its distance repeats what it has just written; outside the window
    the buffer is as before. *)
Theorem backReference_copy :
  forall (fuel : nat) (data : Buffer) (s : lzh) (pointer : Z),
    readUInt16LE data (inputPos s) = Some pointer ->
    1 <= distance pointer <= outputPos s ->
    exists s',
      backReference fuel data s = Returned s'
      /\ outputPos s' = outputPos s + copyLength pointer
      /\ inputPos s' = inputPos s + 2
      /\ (forall i,
             ~ (outputPos s <= i < outputPos s + copyLength pointer) ->
             bget (output s') i = bget (output s) i)
      /\ (forall i,
             outputPos s <= i < outputPos s + copyLength pointer ->
             inRange (output s) i = true ->
             bget (output s') i = bget (output s') (i - distance pointer)).
Proof.
  intros fuel data s pointer Hp Hd.
  pose proof (copyLength_min pointer) as Hmin.
  unfold backReference; rewrite Hp; cbv zeta.
  unfold distance, copyLength in *.
  match goal with
  | |- context [if ?c then _ else _] =>
      replace c with false by (symmetry; apply Z.ltb_ge; lia)
  end.
  rewrite padLoop_nonneg by lia; cbn [bind].
  match goal with
  | |- context [if ?c then _ else _] =>
      replace c with true by (symmetry; apply Z.ltb_lt; lia)
  end.
  match goal with
  | |- context [copyLoop ?n ?cp ?x] =>
      destruct (copyLoop_spec n cp x) as (Ho & Hi & _ & Hu & Hq);
        [cbn [outputPos]; lia|]
  end.
  cbn zeta in *; cbn [outputPos inputPos output] in *.
  rewrite Z2Nat.id in * by lia.
  eexists; split; [reflexivity|].
  split; [assumption|]. split; [assumption|]. split; [assumption|].
  intros i Hw Hin; rewrite (Hq i Hw Hin); f_equal; lia.
Qed.

Lemma backReference_copy_witness :
  exists s',
    backReference 0 [x01; x00]
      {| output := [x41; x00; x00; x00]; outputPos := 1; inputPos := 0;
         reads := [] |}
    = Returned s'
    /\ outputPos s' = 1 + copyLength 1
    /\ inputPos s' = 0 + 2
    /\ (forall i,
           ~ (1 <= i < 1 + copyLength 1) ->
           bget (output s') i = bget [x41; x00; x00; x00] i)
    /\ (forall i,
           1 <= i < 1 + copyLength 1 ->
           inRange [x41; x00; x00; x00] i = true ->
           bget (output s') i = bget (output s') (i - distance 1)).
Proof.
  apply (backReference_copy 0 [x01; x00]
           {| output := [x41; x00; x00; x00]; outputPos := 1; inputPos := 0;
              reads := [] |} 1).
  - reflexivity.
  - vm_compute; split; discriminate.
Defined.

(** ** The extraction loop *)

Lemma callDecompressLZH_not_Thrown (fuel : nat) (data : Buffer) (size : Z)
  (e : exn) :
  callDecompressLZH fuel data size <> Thrown e.
Proof.
  unfold callDecompressLZH, decompressLZH.
  pose proof (decompressLZH_bounds fuel data size) as H.
  destruct (decompressLZH_run fuel data size); cbn [bind];
    [discriminate | contradiction | discriminate].
Qed.

(** What one entry does to the variables of the loop. *)
Lemma extractEntry_effect (fuel : nat) (buffer : Buffer)
  (entry : HeaderEntry) (x : extraction) :
  match extractEntry fuel buffer entry x with
  | Returned x' =>
      offset x' = offset x + dataSize entry
      /\ (exists news,
             thisFiles x' = thisFiles x ++ news
             /\ map path news
                = (if extracted entry then [fileName entry] else [])
             /\ Forall consistent news)
      /\ console x'
         = console x
           ++ (if warned entry
               then [mkWarning (fileName entry) (packingMethod entry)]
               else [])
  | Thrown _ => False
  | OutOfFuel _ => True
  end.
Proof.
  unfold extractEntry, extracted, warned, knownMethod.
  destruct (isScript entry); cbn [andb].
  - destruct (packingMethod entry =? PACKING_METHOD_UNCOMPRESSED);
      cbn [orb negb].
    + cbn [offset thisFiles console].
      split; [reflexivity | split; [|now rewrite app_nil_r]].
      eexists; split; [reflexivity | split; [reflexivity|]].
      repeat constructor.
    + destruct (packingMethod entry =? PACKING_METHOD_PACKED); cbn [negb].
      * pose proof (callDecompressLZH_not_Thrown fuel
                      (slice buffer (offset x) (offset x + dataSize entry))
                      (originalSize entry)) as Hn.
        destruct (callDecompressLZH _ _ _) as [c|e|u]; cbn [bind];
          [| now apply (Hn e) | exact I].
        cbn [offset thisFiles console].
        split; [reflexivity | split; [|now rewrite app_nil_r]].
        eexists; split; [reflexivity | split; [reflexivity|]].
        repeat constructor.
      * cbn [offset thisFiles console].
        split; [reflexivity | split; [|reflexivity]].
        exists []; rewrite app_nil_r; repeat split; constructor.
  - cbn [offset thisFiles console].
    split; [reflexivity | split; [|now rewrite app_nil_r]].
    exists []; rewrite app_nil_r; repeat split; constructor.
Qed.




(** X9.  When the extraction loop returns, the records it has pushed are,
    in table order, one for each entry whose name ends in [.c] or [.cpp]
    (in any case) and whose packing method is 0 or the packed method,
    each with the entry's name as its path and with [name], [lines] and
    [size] derived from its path and content; the warnings written are,
    in table order, one for each such script entry with any other
    packing method. *)
Theorem extractLoop_records :
  forall (fuel : nat) (buffer : Buffer) (entries : list HeaderEntry)
         (x x' : extraction),
    extractLoop fuel buffer entries x = Returned x' ->
    (exists news,
        thisFiles x' = thisFiles x ++ news
        /\ map path news = map fileName (filter extracted entries)
        /\ Forall consistent news)
    /\ console x'
       = console x
         ++ map (fun entry => mkWarning (fileName entry) (packingMethod entry))
              (filter warned entries).
Proof.
  intros fuel buffer entries; induction entries as [|entry rest IH];
    intros x x'; cbn [extractLoop filter map].
  - intros [= <-]; split; [exists []|]; rewrite app_nil_r; repeat split.
    constructor.
  - pose proof (extractEntry_effect fuel buffer entry x) as He.
    destruct (extractEntry fuel buffer entry x) as [x1| |]; cbn [bind];
      try discriminate.
    destruct He as (_ & (n1 & Hf1 & Hp1 & Hc1) & Hw1).
    intros H; apply IH in H; destruct H as ((n2 & Hf2 & Hp2 & Hc2) & Hw2).
    split.
    + exists (n1 ++ n2); repeat split.
      * now rewrite Hf2, Hf1, app_assoc.
      * rewrite map_app, Hp1, Hp2.
        destruct (extracted entry); reflexivity.
      * now apply Forall_app.
    + rewrite Hw2, Hw1, <- app_assoc.
      destruct (warned entry); reflexivity.
Qed.

Lemma extractLoop_records_witness :
  (exists news,
      [recordA; recordB] = [] ++ news
      /\ map path news = map fileName (filter extracted [entryA; entryB])
      /\ Forall consistent news)
  /\ @nil Warning
     = []
       ++ map (fun entry => mkWarning (fileName entry) (packingMethod entry))
            (filter warned [entryA; entryB]).
Proof.
  apply (extractLoop_records 1 scenarioC [entryA; entryB]
           {| offset := 71; thisFiles := []; console := [] |}
           {| offset := 73; thisFiles := [recordA; recordB];
              console := [] |}).
  vm_compute; reflexivity.
Defined.

(** An exception of the table building escapes [parse]. *)
Lemma parse_Thrown :
  forall (fuel : nat) (buffer : Buffer) (this : PBOParser) (e : exn),
    buildTable fuel buffer = Thrown e -> parse fuel buffer this = Thrown e.
Proof.
  intros fuel buffer this e H; unfold parse; rewrite H; reflexivity.
Qed.

(** ** File names, lines and sizes *)

Lemma jsstring_eqb_eq (a b : jsstring) : jsstring_eqb a b = true <-> a = b.
Proof.
  revert b; induction a as [|x a IH]; intros [|y b]; cbn [jsstring_eqb];
    try (split; [discriminate | congruence]); [tauto|].
  rewrite andb_true_iff, Z.eqb_eq, IH.
  split; [intros [-> ->]; reflexivity | intros [= -> ->]; auto].
Qed.

Lemma endsWith_spec (s suffix : jsstring) :
  endsWith s suffix = true <-> exists p, s = p ++ suffix.
Proof.
  unfold endsWith; rewrite andb_true_iff, Nat.leb_le, jsstring_eqb_eq.
  split.
  - intros [Hl Hs].
    set (n := (List.length s - List.length suffix)%nat) in *.
    exists (firstn n s).
    transitivity (firstn n s ++ skipn n s);
      [symmetry; apply firstn_skipn | now rewrite Hs].
  - intros [p ->]; rewrite length_app; split; [lia|].
    replace (List.length p + List.length suffix - List.length suffix)%nat
      with (List.length p) by lia.
    now rewrite skipn_app, skipn_all, Nat.sub_diag.
Qed.

Lemma endsWith_lower (s suffix : jsstring) :
  endsWith (toLowerCase s) suffix = true <->
  exists stem ext, s = stem ++ ext /\ toLowerCase ext = suffix.
Proof.
  rewrite endsWith_spec; unfold toLowerCase; split.
  - intros [p Hp].
    exists (firstn (List.length p) s), (skipn (List.length p) s); split;
      [symmetry; apply firstn_skipn|].
    rewrite <- skipn_map, Hp, skipn_app, skipn_all, Nat.sub_diag.
    reflexivity.
  - intros (stem & ext & -> & <-); rewrite map_app; eauto.
Qed.

(** X11.  The extension filter of [parse]: an entry is taken for a script
    exactly when its name is some stem followed by an extension that
    lower-cases to [.c] or [.cpp], so [.C], [.Cpp] and [.CPP] qualify
    and the stem may be empty. *)
Theorem isScript_iff :
  forall entry : HeaderEntry,
    isScript entry = true <->
    exists stem ext,
      fileName entry = stem ++ ext
      /\ (toLowerCase ext = lit ".c" \/ toLowerCase ext = lit ".cpp").
Proof.
  intros entry; unfold isScript.
  rewrite orb_true_iff, !endsWith_lower; split.
  - intros [(stem & ext & H1 & H2) | (stem & ext & H1 & H2)];
      exists stem, ext; auto.
  - intros (stem & ext & H1 & [H2 | H2]); [left | right];
      exists stem, ext; auto.
Qed.

Lemma splitOn_nonempty (sep : Z -> bool) (s : jsstring) :
  forall cur, splitOn sep cur s <> [].
Proof.
  induction s as [|c s IH]; intros cur; cbn [splitOn];
    [discriminate | destruct (sep c); [discriminate | apply IH]].
Qed.

Lemma last_cons_nonempty {A : Type} (x d : A) (l : list A) :
  l <> [] -> last (x :: l) d = last l d.
Proof. destruct l; [congruence | reflexivity]. Qed.

Lemma last_splitOn (sep : Z -> bool) (s : jsstring) :
  forall cur,
    Forall (fun c => sep c = false) cur ->
    let l := last (splitOn sep cur s) [] in
    Forall (fun c => sep c = false) l
    /\ (rev cur ++ s = l
        \/ exists dir c, sep c = true /\ rev cur ++ s = dir ++ c :: l).
Proof.
  induction s as [|c s IH]; intros cur Hcur; cbn zeta; cbn [splitOn].
  - cbn [last]; rewrite app_nil_r; split; [now apply Forall_rev | now left].
  - destruct (sep c) eqn:Ec.
    + rewrite last_cons_nonempty by apply splitOn_nonempty.
      destruct (IH [] (Forall_nil _)) as (Hl & Hs); cbn zeta in *.
      split; [assumption | right].
      cbn [rev app] in Hs.
      destruct Hs as [Hs | (dir & c' & Hc' & Hs)].
      * exists (rev cur), c; rewrite Hs at 1; auto.
      * exists (rev cur ++ c :: dir), c'; split; [assumption|].
        rewrite Hs at 1; now rewrite <- app_assoc.
    + destruct (IH (c :: cur)) as (Hl & Hs); [now constructor|].
      cbn zeta in *; cbn [rev] in Hs; rewrite <- app_assoc in Hs.
      split; assumption.
Qed.

(** X12.  The [name] of a record is the part of its path after the last
    [/] or [\]: it holds no separator, and the path is either the name
    itself or a directory part, one separator and the name. *)
Theorem baseName_spec :
  forall s : jsstring,
    Forall (fun c => isSeparator c = false) (baseName s)
    /\ (s = baseName s
        \/ exists dir c,
             isSeparator c = true /\ s = dir ++ c :: baseName s).
Proof.
  intros s; unfold baseName.
  apply (last_splitOn (fun c => (c =? 0x5C) || (c =? 0x2F)) s []).
  constructor.
Qed.

Lemma joinWith_cons (sep : Z) (x : jsstring) (l : list jsstring) :
  l <> [] -> joinWith sep (x :: l) = x ++ sep :: joinWith sep l.
Proof. destruct l; [congruence | reflexivity]. Qed.

Lemma splitOn_newline (s : jsstring) :
  forall cur,
    Forall (fun c => c <> 0x0A) cur ->
    let l := splitOn (fun c => c =? 0x0A) cur s in
    joinWith 0x0A l = rev cur ++ s
    /\ Forall (Forall (fun c => c <> 0x0A)) l
    /\ List.length l = S (count_occ Z.eq_dec s 0x0A).
Proof.
  induction s as [|c s IH]; intros cur Hcur; cbn zeta; cbn [splitOn].
  - cbn [joinWith count_occ List.length]; rewrite app_nil_r.
    repeat split; repeat constructor; now apply Forall_rev.
  - destruct (Z.eqb_spec c 0x0A) as [-> | Hne].
    + destruct (IH [] (Forall_nil _)) as (Hj & Hf & Hl); cbn zeta in *.
      rewrite joinWith_cons by apply splitOn_nonempty.
      rewrite Hj; cbn [rev app List.length count_occ].
      destruct (Z.eq_dec 10 10); [|congruence].
      split; [reflexivity | split].
      * constructor; [now apply Forall_rev | assumption].
      * now rewrite Hl.
    + destruct (IH (c :: cur)) as (Hj & Hf & Hl); [now constructor|].
      cbn zeta in *; cbn [rev count_occ] in *.
      rewrite <- app_assoc in Hj.
      destruct (Z.eq_dec c 10); [congruence|].
      repeat split; assumption.
Qed.

(** X13.  The [lines] of a record: joining them with a newline gives the
    content back; no line holds a newline; and there is one line more
    than there are newlines in the content (so the empty content has the
    one empty line). *)
Theorem splitLines_spec :
  forall content : jsstring,
    joinWith 0x0A (splitLines content) = content
    /\ Forall (Forall (fun c => c <> 0x0A)) (splitLines content)
    /\ List.length (splitLines content)
       = S (count_occ Z.eq_dec content 0x0A).
Proof.
  intros content; apply (splitOn_newline content []); constructor.
Qed.








(** ** Whole archives *)

(** X15.  An archive that begins with the boundary marker (a first header
    entry with an empty name that is not the product entry) is not read
    as an archive without files: the table loop goes on to read a header
    entry after it, and when fewer than 21 bytes follow the marker
    [parse] throws a [RangeError]. *)
Theorem parse_marker_first :
  forall (fuel : nat) (buffer : Buffer) (this : PBOParser)
         (firstEntry : HeaderEntry),
    readHeaderEntry buffer 0 = Returned firstEntry ->
    fileName firstEntry = [] ->
    packingMethod firstEntry <> PACKING_METHOD_PRODUCT ->
    blength buffer < newOffset firstEntry + 21 ->
    parse fuel buffer this = Thrown RangeError.
Proof.
  intros fuel buffer this h Hh Hn Hp Hshort.
  apply parse_Thrown.
  unfold buildTable, firstHeader; rewrite Hh; cbn [bind].
  destruct (Z.eqb_spec (packingMethod h) PACKING_METHOD_PRODUCT);
    [contradiction|].
  rewrite Hn; cbn [isEmpty negb bind fst snd].
  assert (E : readHeaderEntry buffer (newOffset h) = Thrown RangeError).
  { destruct (readHeaderEntry buffer (newOffset h)) as [h'|[]|u] eqn:E;
      [| reflexivity | now apply readHeaderEntry_not_OutOfFuel in E].
    apply readHeaderEntry_Returned in E; destruct E as (_ & Eo & Eb).
    pose proof (readCString_advances buffer (newOffset h)); lia. }
  destruct fuel; cbn [entryLoop]; rewrite E; reflexivity.
Qed.

Lemma parse_marker_first_witness :
  parse 3 markerHeader (newPBOParser []) = Thrown RangeError.
Proof.
  apply (parse_marker_first 3 markerHeader (newPBOParser [])
           {| fileName := []; packingMethod := 0; originalSize := 0;
              reserved := 0; timeStamp := 0; dataSize := 0;
              newOffset := 21 |}).
  - vm_compute; reflexivity.
  - reflexivity.
  - discriminate.
  - vm_compute; reflexivity.
Defined.

Lemma u32_small (z : Z) : 0 <= z < 256 -> isU32 z.
Proof. unfold isU32; lia. Qed.

(** The entry table of stored files, laid out in a buffer, is an entry
    table in the sense of [tableAt]. *)
Lemma tableAt_stored (stored : list storedFile) :
  forall pre post,
    Forall storable stored ->
    tableAt (pre ++ flat_map storedHeader stored ++ markerHeader ++ post)
      (blength pre)
      (entriesFrom (blength pre) stored)
      (blength pre + blength (flat_map storedHeader stored) + 21).
Proof.
  induction stored as [|[name data] rest IH]; intros pre post Hs.
  - cbn [flat_map app entriesFrom].
    pose proof (readHeaderEntry_encoded pre [] post 0 0 0 0 0
                  (Forall_nil _)) as H.
    specialize (H (u32_small 0 ltac:(lia)) (u32_small 0 ltac:(lia))
                  (u32_small 0 ltac:(lia)) (u32_small 0 ltac:(lia))
                  (u32_small 0 ltac:(lia))).
    fold markerHeader in H.
    replace (blength pre + blength [] + 21)
      with (blength pre + blength (@nil byte) + 21) by reflexivity.
    eapply table_marker in H; [|reflexivity].
    exact H.
  - inversion Hs as [|? ? (Hne & Hn & Hd) Hrest]; subst; cbn [fst snd] in *.
    cbn [flat_map entriesFrom fst snd].
    set (hdr := storedHeader (name, data)).
    set (buffer := pre ++ (hdr ++ flat_map storedHeader rest)
                   ++ markerHeader ++ post).
    assert (Hb : buffer
                 = pre ++ hdr
                   ++ (flat_map storedHeader rest ++ markerHeader ++ post))
      by (unfold buffer; now rewrite <- !app_assoc).
    assert (Hlen : blength hdr = blength name + 21)
      by (unfold hdr, storedHeader, encodeHeader, u32le; cbn [fst snd]; blen).
    eapply table_entry.
    + rewrite Hb; unfold hdr, storedHeader; cbn [fst snd].
      apply readHeaderEntry_encoded; auto;
        unfold PACKING_METHOD_UNCOMPRESSED, isU32; lia.
    + cbn [fileName]; now apply toStringUtf8_nonempty.
    + cbn [newOffset].
      replace (blength pre + blength name + 21) with (blength (pre ++ hdr))
        by (rewrite blength_app; lia).
      replace (blength pre + blength (hdr ++ flat_map storedHeader rest) + 21)
        with (blength (pre ++ hdr)
              + blength (flat_map storedHeader rest) + 21)
        by (rewrite !blength_app; lia).
      replace buffer
        with ((pre ++ hdr) ++ flat_map storedHeader rest
              ++ markerHeader ++ post)
        by (unfold buffer; now rewrite <- !app_assoc).
      now apply IH.
Qed.

Lemma length_entriesFrom (stored : list storedFile) :
  forall o, List.length (entriesFrom o stored) = List.length stored.
Proof.
  induction stored as [|f rest IH]; intros o; cbn [entriesFrom List.length];
    [reflexivity | now rewrite IH].
Qed.

(** The extraction loop over the data blocks of stored files. *)
Lemma extractLoop_stored (fuel : nat) (stored : list storedFile) :
  forall pre post o fs c,
    extractLoop fuel (pre ++ flat_map snd stored ++ post)
      (entriesFrom o stored)
      {| offset := blength pre; thisFiles := fs; console := c |}
    = Returned
        {| offset := blength pre + blength (flat_map snd stored);
           thisFiles := fs ++ map storedRecord (filter scriptFile stored);
           console := c |}.
Proof.
  induction stored as [|[name data] rest IH]; intros pre post o fs c.
  - cbn [flat_map entriesFrom extractLoop filter map].
    rewrite app_nil_r; change (blength []) with 0; now rewrite Z.add_0_r.
  - cbn [flat_map entriesFrom extractLoop fst snd].
    set (buffer := pre ++ (data ++ flat_map snd rest) ++ post).
    assert (Hb : buffer = (pre ++ data) ++ flat_map snd rest ++ post)
      by (unfold buffer; now rewrite <- !app_assoc).
    assert (Hd : slice buffer (blength pre) (blength pre + blength data)
                 = data).
    { unfold buffer; rewrite <- app_assoc; apply slice_middle. }
    unfold extractEntry, isScript;
      cbn [fileName packingMethod dataSize offset thisFiles console].
    change (endsWith (toLowerCase (toStringUtf8 name)) (lit ".c")
            || endsWith (toLowerCase (toStringUtf8 name)) (lit ".cpp"))
      with (scriptFile (name, data)).
    cbn [filter].
    destruct (scriptFile (name, data)).
    + change (PACKING_METHOD_UNCOMPRESSED =? PACKING_METHOD_UNCOMPRESSED)
        with true; cbn [bind].
      rewrite Hd.
      replace (blength pre + blength data) with (blength (pre ++ data))
        by apply blength_app.
      rewrite Hb, IH; f_equal; f_equal.
      * rewrite !blength_app; lia.
      * cbn [map]; now rewrite <- app_assoc.
    + cbn [bind].
      replace (blength pre + blength data) with (blength (pre ++ data))
        by apply blength_app.
      rewrite Hb, IH; f_equal; f_equal.
      rewrite !blength_app; lia.
Qed.

(** X16.  Reading an archive back.  For an archive laid out as the format
    has it (product entry, property block, one header entry per stored
    file, boundary marker, the data of the files in the same order),
    [parse] returns, after the records the instance already holds, one
    record for each stored file whose name ends in [.c] or [.cpp] in any
    case, in table order, with the decoded name as path and the decoded
    data as content, and writes no warning. *)
Theorem parse_encodeArchive :
  forall (properties : list (Buffer * Buffer)) (stored : list storedFile)
         (fuel : nat) (this : PBOParser),
    Forall storableProperty properties ->
    Forall storable stored ->
    (List.length properties <= fuel)%nat ->
    (List.length stored <= fuel)%nat ->
    parse fuel (encodeArchive properties stored) this
    = Returned
        ({| pboPath := pboPath this;
            files := files this
                     ++ map storedRecord (filter scriptFile stored) |},
         []).
Proof.
  intros props stored fuel this Hp Hs Hfp Hfs.
  set (buffer := encodeArchive props stored).
  set (table := flat_map storedHeader stored).
  assert (Hph : blength productHeader = 21) by reflexivity.
  assert (Hmh : blength markerHeader = 21) by reflexivity.
  (* the first header entry *)
  assert (H1 : readHeaderEntry buffer 0
               = Returned {| fileName := [];
                             packingMethod := PACKING_METHOD_PRODUCT;
                             originalSize := 0; reserved := 0;
                             timeStamp := 0; dataSize := 0;
                             newOffset := 21 |}).
  { pose proof (readHeaderEntry_encoded [] []
                  (encodeProperties props ++ table ++ markerHeader
                   ++ flat_map snd stored)
                  PACKING_METHOD_PRODUCT 0 0 0 0 (Forall_nil _)) as H.
    apply H; unfold isU32, PACKING_METHOD_PRODUCT; lia. }
  (* the property block *)
  assert (H2 : propertyLoop fuel buffer 21
               = Returned (21 + blength (encodeProperties props))).
  { pose proof (propertyLoop_encoded props productHeader
                  (table ++ markerHeader ++ flat_map snd stored) fuel Hp Hfp)
      as H.
    rewrite Hph in H; exact H. }
  (* the entry table *)
  set (start := 21 + blength (encodeProperties props)).
  assert (H3 : entryLoop fuel buffer start []
               = Returned (entriesFrom start stored,
                           start + blength table + 21)).
  { pose proof (tableAt_stored stored
                  (productHeader ++ encodeProperties props)
                  (flat_map snd stored) Hs) as Ht.
    rewrite blength_app, Hph in Ht; fold start table in Ht.
    replace ((productHeader ++ encodeProperties props) ++ table
             ++ markerHeader ++ flat_map snd stored)
      with buffer in Ht
      by (unfold buffer, encodeArchive, table; now rewrite <- !app_assoc).
    apply (entryLoop_complete _ _ _ _ Ht fuel []).
    now rewrite length_entriesFrom. }
  (* the data blocks *)
  assert (H4 : extractLoop fuel buffer (entriesFrom start stored)
                 {| offset := start + blength table + 21;
                    thisFiles := files this; console := [] |}
               = Returned
                   {| offset := start + blength table + 21
                                + blength (flat_map snd stored);
                      thisFiles := files this
                                   ++ map storedRecord
                                        (filter scriptFile stored);
                      console := [] |}).
  { pose proof (extractLoop_stored fuel stored
                  (productHeader ++ encodeProperties props ++ table
                   ++ markerHeader) [] start (files this) []) as He.
    rewrite app_nil_r in He.
    replace (blength (productHeader ++ encodeProperties props ++ table
                      ++ markerHeader))
      with (start + blength table + 21) in He
      by (rewrite !blength_app, Hph, Hmh; unfold start; lia).
    replace ((productHeader ++ encodeProperties props ++ table
              ++ markerHeader) ++ flat_map snd stored)
      with buffer in He
      by (unfold buffer, encodeArchive, table; now rewrite <- !app_assoc).
    exact He. }
  unfold parse, buildTable, firstHeader.
  rewrite H1; cbn [bind packingMethod newOffset].
  change (PACKING_METHOD_PRODUCT =? PACKING_METHOD_PRODUCT) with true.
  cbv iota; rewrite H2; cbn [bind fst snd].
  fold start; rewrite H3; cbn [bind].
  rewrite H4; reflexivity.
Qed.

Lemma parse_encodeArchive_witness :
  parse 2
    (encodeArchive [(bytesOf "prefix", bytesOf "mymod")]
       [(bytesOf "config.bin", bytesOf "raw");
        (bytesOf "scripts\init.C", bytesOf "void main() {}")])
    (newPBOParser [])
  = Returned
      ({| pboPath := [];
          files := [storedRecord
                      (bytesOf "scripts\init.C",
                       bytesOf "void main() {}")] |}, []).
Proof.
  apply (parse_encodeArchive [(bytesOf "prefix", bytesOf "mymod")]
           [(bytesOf "config.bin", bytesOf "raw");
            (bytesOf "scripts\init.C", bytesOf "void main() {}")]
           2 (newPBOParser [])).
  - repeat constructor; cbn; discriminate.
  - repeat constructor; cbn; try discriminate; lia.
  - cbn; lia.
  - cbn; lia.
Defined.

(** * The analyzer *)

Lemma count_occ_firstn_le (l : jsstring) (x : Z) :
  forall n m,
    (n <= m)%nat ->
    (count_occ Z.eq_dec (firstn n l) x
     <= count_occ Z.eq_dec (firstn m l) x)%nat.
Proof.
  induction l as [|c l IH]; intros n m Hnm.
  - rewrite !firstn_nil; lia.
  - destruct n as [|n]; [cbn [firstn count_occ]; lia|].
    destruct m as [|m]; [lia|].
    cbn [firstn count_occ].
    specialize (IH n m ltac:(lia)).
    destruct (Z.eq_dec c x); lia.
Qed.

(** X17.  [getLineNumber]: the line number of an index is one more than
    the number of newlines before it; it is at least 1, at most the
    number of [lines] of the content, and does not decrease when the
    index grows.  An index below 0 or beyond the content counts as the
    start or the end of the content. *)
Theorem getLineNumber_spec :
  forall (content : jsstring) (index : Z),
    Analyzer.getLineNumber content index
    = 1 + Z.of_nat (count_occ Z.eq_dec
                      (firstn (Z.to_nat index) content) 0x0A)
    /\ 1 <= Analyzer.getLineNumber content index
       <= Z.of_nat (List.length (splitLines content))
    /\ (forall index',
           index <= index' ->
           Analyzer.getLineNumber content index
           <= Analyzer.getLineNumber content index').
Proof.
  intros content index.
  assert (E : forall i,
             Analyzer.getLineNumber content i
             = 1 + Z.of_nat (count_occ Z.eq_dec
                               (firstn (Z.to_nat i) content) 0x0A)).
  { intros i; unfold Analyzer.getLineNumber, splitLines.
    destruct (splitOn_newline (firstn (Z.to_nat i) content) []
                (Forall_nil _)) as (_ & _ & Hl).
    cbn zeta in Hl; rewrite Hl; lia. }
  split; [apply E | split].
  - rewrite E.
    destruct (splitOn_newline content [] (Forall_nil _)) as (_ & _ & Hl).
    cbn zeta in Hl; unfold splitLines; rewrite Hl.
    pose proof (count_occ_firstn_le content 0x0A (Z.to_nat index)
                  (List.length content)) as Hle.
    rewrite firstn_all in Hle.
    destruct (Nat.le_gt_cases (Z.to_nat index) (List.length content))
      as [Hi | Hi]; [specialize (Hle Hi); lia|].
    rewrite firstn_all2 by lia; lia.
  - intros index' Hii; rewrite !E.
    pose proof (count_occ_firstn_le content 0x0A (Z.to_nat index)
                  (Z.to_nat index') ltac:(lia)); lia.
Qed.

Lemma countIssue_counts (s : Analyzer.Summary) (i : Analyzer.Issue) :
  let s' := Analyzer.countIssue s i in
  Analyzer.totalFiles s' = Analyzer.totalFiles s
  /\ Analyzer.totalIssues s' = Analyzer.totalIssues s + 1
  /\ Analyzer.critical s'
     = Analyzer.critical s + Analyzer.countSeverity Analyzer.CRITICAL [i]
  /\ Analyzer.high s'
     = Analyzer.high s + Analyzer.countSeverity Analyzer.HIGH [i]
  /\ Analyzer.medium s'
     = Analyzer.medium s + Analyzer.countSeverity Analyzer.MEDIUM [i]
  /\ Analyzer.low s'
     = Analyzer.low s + Analyzer.countSeverity Analyzer.LOW [i]
  /\ Analyzer.info s'
     = Analyzer.info s + Analyzer.countSeverity Analyzer.INFO [i]
  /\ Analyzer.countSeverity Analyzer.CRITICAL [i]
     + Analyzer.countSeverity Analyzer.HIGH [i]
     + Analyzer.countSeverity Analyzer.MEDIUM [i]
     + Analyzer.countSeverity Analyzer.LOW [i]
     + Analyzer.countSeverity Analyzer.INFO [i] <= 1.
Proof.
  cbn zeta; unfold Analyzer.countIssue, Analyzer.countSeverity.
  cbn [filter].
  destruct (String.eqb (Analyzer.severity i) Analyzer.CRITICAL) eqn:E1;
    [apply String.eqb_eq in E1; try rewrite E1; cbn; repeat split; lia|].
  destruct (String.eqb (Analyzer.severity i) Analyzer.HIGH) eqn:E2;
    [apply String.eqb_eq in E2; try rewrite E2; cbn; repeat split; lia|].
  destruct (String.eqb (Analyzer.severity i) Analyzer.MEDIUM) eqn:E3;
    [apply String.eqb_eq in E3; try rewrite E3; cbn; repeat split; lia|].
  destruct (String.eqb (Analyzer.severity i) Analyzer.LOW) eqn:E4;
    [apply String.eqb_eq in E4; try rewrite E4; cbn; repeat split; lia|].
  destruct (String.eqb (Analyzer.severity i) Analyzer.INFO) eqn:E5;
    [apply String.eqb_eq in E5; try rewrite E5; cbn; repeat split; lia|].
  cbn; repeat split; lia.
Qed.

Lemma countSeverity_cons (sev : string) (i : Analyzer.Issue)
  (l : list Analyzer.Issue) :
  Analyzer.countSeverity sev (i :: l)
  = Analyzer.countSeverity sev [i] + Analyzer.countSeverity sev l.
Proof.
  unfold Analyzer.countSeverity; cbn [filter].
  destruct (String.eqb _ _); cbn [List.length]; lia.
Qed.

Lemma countSeverity_app (sev : string) (a b : list Analyzer.Issue) :
  Analyzer.countSeverity sev (a ++ b)
  = Analyzer.countSeverity sev a + Analyzer.countSeverity sev b.
Proof.
  unfold Analyzer.countSeverity; rewrite filter_app, length_app; lia.
Qed.

Lemma gains_refl (s : Analyzer.Summary) : gains s s [].
Proof. unfold gains, Analyzer.countSeverity; cbn; repeat split; lia. Qed.

Lemma gains_step (s : Analyzer.Summary) (i : Analyzer.Issue) :
  gains s (Analyzer.countIssue s i) [i].
Proof.
  pose proof (countIssue_counts s i) as H; cbn zeta in H.
  unfold gains; cbn [List.length]; intuition lia.
Qed.

Lemma gains_trans (s1 s2 s3 : Analyzer.Summary) (a b : list Analyzer.Issue) :
  gains s1 s2 a -> gains s2 s3 b -> gains s1 s3 (a ++ b).
Proof.
  unfold gains; rewrite !countSeverity_app, length_app.
  intros (A1 & A2 & A3 & A4 & A5 & A6 & A7 & A8)
         (B1 & B2 & B3 & B4 & B5 & B6 & B7 & B8).
  repeat split; lia.
Qed.

Lemma fold_countIssue_gains (l : list Analyzer.Issue) :
  forall s, gains s (fold_left Analyzer.countIssue l s) l.
Proof.
  induction l as [|i l IH]; intros s; cbn [fold_left];
    [apply gains_refl|].
  change (i :: l) with ([i] ++ l).
  eapply gains_trans; [apply gains_step | apply IH].
Qed.

(** The summary gains the issues of all files. *)
Lemma calculateSummary_gains :
  forall (summary : Analyzer.Summary) (results : list Analyzer.FileIssues),
    gains summary (Analyzer.calculateSummary summary results)
      (Analyzer.allIssues results).
Proof.
  intros summary results; revert summary.
  unfold Analyzer.calculateSummary, Analyzer.allIssues.
  induction results as [|fr rest IH]; intros summary;
    cbn [fold_left flat_map]; [apply gains_refl|].
  eapply gains_trans; [apply fold_countIssue_gains | apply IH].
Qed.

(** X18.  [calculateSummary] adds to the summary it finds: [totalIssues]
    grows by the number of issues of all files, each of the five counters
    by the number of issues of its severity, [totalFiles] stays; the five
    counters together grow by no more than [totalIssues] does, an issue
    of any other severity being counted in [totalIssues] only. *)
Theorem calculateSummary_counts :
  forall (summary : Analyzer.Summary) (results : list Analyzer.FileIssues),
    gains summary (Analyzer.calculateSummary summary results)
      (Analyzer.allIssues results).
Proof. exact calculateSummary_gains. Qed.

(** X19.  [getScore] lies between 0 and 100 when no counter is negative,
    and more issues never give a higher score: a summary with at least as
    many issues of every severity scores at most as much. *)
Theorem getScore_bounds :
  forall s s' : Analyzer.Summary,
    0 <= Analyzer.critical s -> 0 <= Analyzer.high s ->
    0 <= Analyzer.medium s -> 0 <= Analyzer.low s ->
    0 <= Analyzer.info s ->
    Analyzer.fewerIssues s s' ->
    0 <= Analyzer.getScore s' <= Analyzer.getScore s
    /\ Analyzer.getScore s <= 100.
Proof.
  intros s s' H1 H2 H3 H4 H5 (L1 & L2 & L3 & L4 & L5).
  unfold Analyzer.getScore, Analyzer.penalties; cbv zeta; lia.
Qed.

Lemma getScore_bounds_witness :
  0 <= Analyzer.getScore (Analyzer.mkSummary 3 7 1 2 0 0 4)
    <= Analyzer.getScore (Analyzer.mkSummary 3 4 1 1 0 0 2)
  /\ Analyzer.getScore (Analyzer.mkSummary 3 4 1 1 0 0 2) <= 100.
Proof.
  apply (getScore_bounds (Analyzer.mkSummary 3 4 1 1 0 0 2)
           (Analyzer.mkSummary 3 7 1 2 0 0 4));
    cbn; try lia.
  unfold Analyzer.fewerIssues; cbn; lia.
Defined.

(** X20.  [getRating] in terms of the weighted number of issues (20 per
    critical, 10 per high, 5 per medium, 2 per low, 1 per info issue):
    EXCELLENT up to 10, GOOD up to 25, FAIR up to 40, POOR up to 60,
    CRITICAL above; so one critical issue rules out EXCELLENT and four
    give CRITICAL. *)
Theorem getRating_bands :
  forall s : Analyzer.Summary,
    Analyzer.getRating s
    = if Analyzer.penalties s <=? 10 then "EXCELLENT"%string
      else if Analyzer.penalties s <=? 25 then "GOOD"%string
      else if Analyzer.penalties s <=? 40 then "FAIR"%string
      else if Analyzer.penalties s <=? 60 then "POOR"%string
      else "CRITICAL"%string.
Proof.
  intros s; unfold Analyzer.getRating, Analyzer.getScore; cbv zeta.
  set (p := Analyzer.penalties s).
  destruct (Z.leb_spec p 10); [| destruct (Z.leb_spec p 25);
    [| destruct (Z.leb_spec p 40); [| destruct (Z.leb_spec p 60)]]];
    repeat match goal with
           | |- context [?a <=? ?b] =>
               let H := fresh in
               destruct (Z.leb_spec a b) as [H | H]; try lia
           end; reflexivity.
Qed.

(** ** Archives without product entry, and packed entries *)

(** [parse] put together from its phases, for an archive whose first
    header entry is a file. *)
Lemma parse_plain_parts (fuel : nat) (buffer : Buffer) (this : PBOParser)
  (first : HeaderEntry) (entries : list HeaderEntry) (o : Z)
  (x' : extraction) :
  readHeaderEntry buffer 0 = Returned first ->
  packingMethod first <> PACKING_METHOD_PRODUCT ->
  fileName first <> [] ->
  entryLoop fuel buffer (newOffset first) [first] = Returned (entries, o) ->
  extractLoop fuel buffer entries
    {| offset := o; thisFiles := files this; console := [] |}
  = Returned x' ->
  parse fuel buffer this
  = Returned ({| pboPath := pboPath this; files := thisFiles x' |},
              console x').
Proof.
  intros H1 Hp Hn H3 H4.
  unfold parse, buildTable, firstHeader; rewrite H1; cbn [bind].
  destruct (Z.eqb_spec (packingMethod first) PACKING_METHOD_PRODUCT);
    [contradiction|].
  destruct (fileName first); [congruence|].
  cbn [isEmpty negb bind fst snd]; rewrite H3; cbn [bind]; rewrite H4.
  reflexivity.
Qed.

(** X21.  Reading back an archive that has no product entry.  When the
    archive starts with the header entry of its first file, [parse] puts
    that entry in the table itself and returns, as for an archive with
    a product entry, one record for each stored file whose name ends in
    [.c] or [.cpp], in table order. *)
Theorem parse_encodePlainArchive :
  forall (stored : list storedFile) (fuel : nat) (this : PBOParser),
    stored <> [] ->
    Forall storable stored ->
    (List.length stored <= fuel)%nat ->
    parse fuel (encodePlainArchive stored) this
    = Returned
        ({| pboPath := pboPath this;
            files := files this
                     ++ map storedRecord (filter scriptFile stored) |},
         []).
Proof.
  intros stored fuel this Hne Hs Hf.
  destruct stored as [|[name data] rest]; [congruence|].
  inversion Hs as [|? ? (Hn0 & Hn & Hd) Hrest]; subst; cbn [fst snd] in *.
  set (stored := (name, data) :: rest).
  set (buffer := encodePlainArchive stored).
  set (hdr := storedHeader (name, data)).
  assert (Hlen : blength hdr = blength name + 21)
    by (unfold hdr, storedHeader, encodeHeader, u32le; cbn [fst snd]; blen).
  assert (Hb : buffer
               = hdr ++ flat_map storedHeader rest ++ markerHeader
                 ++ flat_map snd stored).
  { unfold buffer, encodePlainArchive, stored; cbn [flat_map].
    fold hdr; now rewrite <- !app_assoc. }
  assert (Hmh : blength markerHeader = 21) by reflexivity.
  set (first := {| fileName := toStringUtf8 name;
                   packingMethod := PACKING_METHOD_UNCOMPRESSED;
                   originalSize := blength data; reserved := 0;
                   timeStamp := 0; dataSize := blength data;
                   newOffset := 0 + blength name + 21 |}).
  assert (H1 : readHeaderEntry buffer 0 = Returned first).
  { rewrite Hb.
    pose proof (readHeaderEntry_encoded [] name
                  (flat_map storedHeader rest ++ markerHeader
                   ++ flat_map snd stored)
                  PACKING_METHOD_UNCOMPRESSED (blength data) 0 0
                  (blength data) Hn) as H.
    apply H; auto; unfold isU32, PACKING_METHOD_UNCOMPRESSED; lia. }
  assert (H3 : entryLoop fuel buffer (newOffset first) [first]
               = Returned (entriesFrom 0 stored,
                           blength hdr
                           + blength (flat_map storedHeader rest) + 21)).
  { pose proof (tableAt_stored rest hdr (flat_map snd stored) Hrest) as Ht.
    rewrite <- Hb in Ht.
    replace (newOffset first) with (blength hdr)
      by (cbn [newOffset first]; lia).
    rewrite (entryLoop_complete _ _ _ _ Ht fuel [first])
      by (rewrite length_entriesFrom; cbn [List.length] in Hf; lia).
    unfold stored; cbn [entriesFrom app fst snd].
    rewrite Hlen; reflexivity. }
  assert (H4 : extractLoop fuel buffer (entriesFrom 0 stored)
                 {| offset := blength hdr
                              + blength (flat_map storedHeader rest) + 21;
                    thisFiles := files this; console := [] |}
               = Returned
                   {| offset := blength hdr
                                + blength (flat_map storedHeader rest) + 21
                                + blength (flat_map snd stored);
                      thisFiles := files this
                                   ++ map storedRecord
                                        (filter scriptFile stored);
                      console := [] |}).
  { pose proof (extractLoop_stored fuel stored
                  (hdr ++ flat_map storedHeader rest ++ markerHeader) []
                  0 (files this) []) as He.
    rewrite app_nil_r in He.
    replace (blength (hdr ++ flat_map storedHeader rest ++ markerHeader))
      with (blength hdr + blength (flat_map storedHeader rest) + 21) in He
      by (rewrite !blength_app, Hmh; lia).
    replace ((hdr ++ flat_map storedHeader rest ++ markerHeader)
             ++ flat_map snd stored)
      with buffer in He by (rewrite Hb; now rewrite <- !app_assoc).
    exact He. }
  assert (Hp : packingMethod first <> PACKING_METHOD_PRODUCT)
    by discriminate.
  assert (Hfn : fileName first <> [])
    by (cbn [first fileName]; now apply toStringUtf8_nonempty).
  pose proof (parse_plain_parts fuel buffer this first _ _ _ H1 Hp Hfn H3 H4)
    as H.
  cbn [thisFiles console] in H; exact H.
Qed.

Lemma parse_encodePlainArchive_witness :
  parse 1 (encodePlainArchive [(bytesOf "a.cpp", bytesOf "int x;")])
    (newPBOParser [])
  = Returned
      ({| pboPath := [];
          files := [storedRecord (bytesOf "a.cpp", bytesOf "int x;")] |},
       []).
Proof.
  apply (parse_encodePlainArchive [(bytesOf "a.cpp", bytesOf "int x;")]
           1 (newPBOParser [])).
  - discriminate.
  - repeat constructor; cbn; try discriminate; lia.
  - cbn; lia.
Defined.

(** X22.  A packed script entry whose data block is made of all-literal
    control bytes, each with its 8 literals, followed by at least two
    more bytes inside the block, and whose [originalSize] is the number
    of literals: the record it yields has the decoded literal bytes for
    content. *)
Theorem extractEntry_packed_literals :
  forall (fuel : nat) (pre post trailer : Buffer) (blocks : list block)
         (entry : HeaderEntry) (fs : list ExtractedFile) (c : list Warning),
    isScript entry = true ->
    packingMethod entry = PACKING_METHOD_PACKED ->
    originalSize entry = 8 * Z.of_nat (List.length blocks) ->
    dataSize entry = blength (allLiteral blocks ++ trailer) ->
    (2 <= List.length trailer)%nat ->
    (List.length blocks <= fuel)%nat ->
    extractEntry fuel (pre ++ (allLiteral blocks ++ trailer) ++ post) entry
      {| offset := blength pre; thisFiles := fs; console := c |}
    = Returned
        {| offset := blength pre + dataSize entry;
           thisFiles :=
             fs ++ [extractedFile entry
                      (toStringUtf8 (literalBytes blocks))];
           console := c |}.
Proof.
  intros fuel pre post trailer blocks entry fs c Hs Hp Ho Hd Ht Hf.
  unfold extractEntry; cbn [offset thisFiles console].
  rewrite Hs, Hp, Hd, slice_middle, Ho.
  change (PACKING_METHOD_PACKED =? PACKING_METHOD_UNCOMPRESSED) with false.
  change (PACKING_METHOD_PACKED =? PACKING_METHOD_PACKED) with true.
  cbv iota.
  destruct (literal_run_trailer blocks trailer fuel Ht Hf) as (s & E & Eo).
  unfold callDecompressLZH, decompressLZH; rewrite E; cbn [bind].
  now rewrite Eo.
Qed.

Lemma extractEntry_packed_literals_witness :
  extractEntry 1
    ([x2a] ++ (allLiteral [blockAH] ++ [x00; x00]) ++ [x2a])
    {| fileName := lit "a.c"; packingMethod := PACKING_METHOD_PACKED;
       originalSize := 8; reserved := 0; timeStamp := 0; dataSize := 11;
       newOffset := 0 |}
    {| offset := 1; thisFiles := []; console := [] |}
  = Returned
      {| offset := 1 + 11;
         thisFiles :=
           [] ++ [extractedFile
                    {| fileName := lit "a.c";
                       packingMethod := PACKING_METHOD_PACKED;
                       originalSize := 8; reserved := 0; timeStamp := 0;
                       dataSize := 11; newOffset := 0 |}
                    (toStringUtf8 (literalBytes [blockAH]))];
         console := [] |}.
Proof.
  apply (extractEntry_packed_literals 1 [x2a] [x2a] [x00; x00] [blockAH]
           {| fileName := lit "a.c"; packingMethod := PACKING_METHOD_PACKED;
              originalSize := 8; reserved := 0; timeStamp := 0;
              dataSize := 11; newOffset := 0 |} [] []);
    try reflexivity; cbn; lia.
Defined.

(** ** [analyze] *)

Lemma fold_analyzeOne (analyzeFile : ExtractedFile -> list Analyzer.Issue)
  (files : list ExtractedFile) :
  forall r,
    let r' := fold_left (Analyzer.analyzeOne analyzeFile) files r in
    Analyzer.summary r' = Analyzer.summary r
    /\ Analyzer.fileStats r'
       = Analyzer.fileStats r ++ map (statOf analyzeFile) files
    /\ Analyzer.fileIssues r'
       = Analyzer.fileIssues r
         ++ map (issuesOf analyzeFile) (filter (hasIssues analyzeFile) files).
Proof.
  induction files as [|f files IH]; intros r; cbn zeta;
    cbn [fold_left map filter].
  - rewrite !app_nil_r; auto.
  - destruct (IH (Analyzer.analyzeOne analyzeFile r f)) as (Hs & Ht & Hi).
    cbn zeta in *; rewrite Hs, Ht, Hi.
    unfold Analyzer.analyzeOne at 1 2 3, hasIssues;
      cbn [Analyzer.summary Analyzer.fileStats Analyzer.fileIssues].
    split; [reflexivity | split].
    + now rewrite <- app_assoc.
    + destruct (analyzeFile f) eqn:E; cbn [List.length].
      * reflexivity.
      * replace (0 <? Z.of_nat (S (List.length l))) with true
          by (symmetry; apply Z.ltb_lt; lia).
        cbn [map].
        replace (issuesOf analyzeFile f)
          with (Analyzer.mkFileIssues (path f) (i :: l))
          by (unfold issuesOf; now rewrite E).
        now rewrite <- app_assoc.
Qed.

Lemma length_allIssues (analyzeFile : ExtractedFile -> list Analyzer.Issue)
  (files : list ExtractedFile) :
  Z.of_nat (List.length
              (Analyzer.allIssues
                 (map (issuesOf analyzeFile)
                    (filter (hasIssues analyzeFile) files))))
  = Analyzer.totalIssueCount (map (statOf analyzeFile) files).
Proof.
  unfold Analyzer.allIssues, Analyzer.totalIssueCount.
  induction files as [|f files IH]; cbn [filter map flat_map fold_right];
    [reflexivity|].
  unfold hasIssues at 1; cbn [statOf Analyzer.issueCount].
  destruct (analyzeFile f) eqn:E.
  - cbn [List.length]; rewrite IH; lia.
  - cbn [map flat_map issuesOf Analyzer.issues].
    rewrite length_app, E, Nat2Z.inj_add, IH; lia.
Qed.

(** X23.  [analyze] on a fresh analyzer, whatever the rules find: there
    is one line of statistics per file, in order, with the file's path,
    size, number of lines and number of issues; the issue list has one
    element for each file that has issues, in order, and none for the
    others; [totalFiles] is the number of files, [totalIssues] is the
    sum of the issue counts of the statistics, and the five severity
    counters add up to at most [totalIssues]. *)
Theorem analyze_fresh :
  forall (analyzeFile : ExtractedFile -> list Analyzer.Issue)
         (files : list ExtractedFile),
    let r := Analyzer.analyze analyzeFile files (Analyzer.newResults files) in
    let s := Analyzer.summary r in
    Analyzer.fileStats r = map (statOf analyzeFile) files
    /\ Analyzer.fileIssues r
       = map (issuesOf analyzeFile) (filter (hasIssues analyzeFile) files)
    /\ Analyzer.totalFiles s = Z.of_nat (List.length files)
    /\ Analyzer.totalIssues s
       = Analyzer.totalIssueCount (Analyzer.fileStats r)
    /\ 0 <= Analyzer.critical s + Analyzer.high s + Analyzer.medium s
            + Analyzer.low s + Analyzer.info s
       <= Analyzer.totalIssues s.
Proof.
  intros analyzeFile files; cbv zeta.
  unfold Analyzer.analyze;
    cbn [Analyzer.summary Analyzer.fileStats Analyzer.fileIssues].
  destruct (fold_analyzeOne analyzeFile files (Analyzer.newResults files))
    as (Hs & Ht & Hi); cbn zeta in *.
  cbn [Analyzer.newResults Analyzer.fileStats Analyzer.fileIssues app] in *.
  rewrite Hs, Ht, Hi.
  pose proof (calculateSummary_gains
                (Analyzer.summary (Analyzer.newResults files))
                (map (issuesOf analyzeFile)
                   (filter (hasIssues analyzeFile) files))) as Hg.
  destruct Hg as (G1 & G2 & G3 & G4 & G5 & G6 & G7 & G8).
  rewrite length_allIssues in G2, G8.
  cbn [Analyzer.newResults Analyzer.summary Analyzer.totalFiles
         Analyzer.totalIssues Analyzer.critical Analyzer.high
         Analyzer.medium Analyzer.low Analyzer.info] in *.
  unfold Analyzer.countSeverity in *.
  repeat split; try assumption; lia.
Qed.
